(** * golobactl: the command-line Get (httpClient of) the goloba load balancer

    A shallow embedding of [cmd/golobactl/main.go].  Every subcommand
    ([info], [attach], [detach], [unlock]) starts one goroutine per
    configured API server, each goroutine sends one HTTP GET request and
    prints what it receives, and the command waits on a [sync.WaitGroup].

    The embedding has three layers:
    - the Go library functions the program calls ([fmt] verbs,
      [url.QueryEscape], [net.JoinHostPort]), as executable functions on
      strings;
    - the body of each goroutine, as the list of effects it performs in
      program order ([unit] functions, one per subcommand);
    - the goroutines and the WaitGroup, as a step relation on a state
      holding the main function's position, the counter, the pool of
      goroutines and the history of effects. *)

From Stdlib Require Import ZArith Ascii String DecimalString.
From stdpp Require Import base tactics list strings relations.

Local Open Scope string_scope.
Local Open Scope list_scope.

(** ** Strings *)

Notation "a +++ b" := (String.append a b) (at level 60, right associativity).

Definition concat_str (l : list string) : string :=
  foldr String.append "" l.

Fixpoint repeat_char (c : ascii) (n : nat) : string :=
  match n with
  | O => ""
  | S k => String c (repeat_char c k)
  end.

Fixpoint contains_char (c : ascii) (s : string) : bool :=
  match s with
  | "" => false
  | String x r => if Ascii.eqb x c then true else contains_char c r
  end.

(** ** The [fmt] verbs the program uses *)
Module fmt.

(** [%d] and [strconv.Itoa]: decimal, with a minus sign when negative. *)
Definition d (z : Z) : string := NilZero.string_of_int (Z.to_int z).

(** [%v] on a bool. *)
Definition v (b : bool) : string := if b then "true" else "false".

(** [%-Ns]: left-justified in a field of width [w], padded with spaces on
    the right, never truncated.  The width is counted in characters. *)
Definition left (w : nat) (s : string) : string :=
  s +++ repeat_char " " (w - String.length s).

End fmt.

(** ** [net/url]: query escaping *)
Module url.

Definition upperhex (n : N) : ascii :=
  match String.get (N.to_nat n) "0123456789ABCDEF" with
  | Some c => c
  | None => "0"%char
  end.

Definition is_alnum (c : ascii) : bool :=
  let n := N_of_ascii c in
  ((97 <=? n) && (n <=? 122) || (65 <=? n) && (n <=? 90)
   || (48 <=? n) && (n <=? 57))%N.

(** [shouldEscape(c, encodeQueryComponent)]: letters, digits and the
    marks [- _ . ~] are kept, every other byte is escaped. *)
Definition shouldEscape (c : ascii) : bool :=
  if is_alnum c then false
  else if (Ascii.eqb c "-" || Ascii.eqb c "_" || Ascii.eqb c "."
           || Ascii.eqb c "~")%char then false
  else true.

(** [QueryEscape]: a space becomes [+], an escaped byte becomes [%XX]
    with upper-case hexadecimal digits. *)
Fixpoint QueryEscape (s : string) : string :=
  match s with
  | "" => ""
  | String c r =>
      if Ascii.eqb c " " then String "+" (QueryEscape r)
      else if shouldEscape c then
        String "%" (String (upperhex (N.shiftr (N_of_ascii c) 4))
          (String (upperhex (N.land (N_of_ascii c) 15)) (QueryEscape r)))
      else String c (QueryEscape r)
  end.

Definition unhex (c : ascii) : option N :=
  let n := N_of_ascii c in
  if ((48 <=? n) && (n <=? 57))%N then Some (n - 48)%N
  else if ((97 <=? n) && (n <=? 102))%N then Some (n - 97 + 10)%N
  else if ((65 <=? n) && (n <=? 70))%N then Some (n - 65 + 10)%N
  else None.

(** [QueryUnescape], the inverse transformation: [%XX] is one byte, [+]
    is a space; a [%] not followed by two hexadecimal digits is an
    error. *)
Fixpoint QueryUnescape (s : string) : option string :=
  match s with
  | "" => Some ""
  | String c r =>
      if Ascii.eqb c "%" then
        match r with
        | String h (String l r') =>
            match unhex h, unhex l, QueryUnescape r' with
            | Some a, Some b, Some t =>
                Some (String (ascii_of_N (N.lor (N.shiftl a 4) b)) t)
            | _, _, _ => None
            end
        | _ => None
        end
      else
        match QueryUnescape r with
        | Some t => Some (String (if Ascii.eqb c "+" then " "%char else c) t)
        | None => None
        end
  end.

(** The raw query of a URL: what follows the first [?]. *)
Fixpoint rawQuery (u : string) : string :=
  match u with
  | "" => ""
  | String c r => if Ascii.eqb c "?" then r else rawQuery r
  end.

(** Splitting at every occurrence of a separator. *)
Fixpoint split_on (sep : ascii) (s : string) : list string :=
  match s with
  | "" => [""]
  | String c r =>
      if Ascii.eqb c sep then "" :: split_on sep r
      else match split_on sep r with
           | x :: xs => String c x :: xs
           | [] => [String c ""]
           end
  end.

(** Cutting at the first occurrence of a separator. *)
Fixpoint cut (sep : ascii) (s : string) : string * string :=
  match s with
  | "" => ("", "")
  | String c r =>
      if Ascii.eqb c sep then ("", r)
      else let '(k, v) := cut sep r in (String c k, v)
  end.

(** The parameters of a raw query, in order: pieces separated by [&],
    each cut at its first [=] into a name and a (still escaped) value. *)
Definition params (q : string) : list (string * string) :=
  map (cut "=") (split_on "&" q).

End url.

(** ** [net.JoinHostPort] *)
Module net.

(** A host with a colon in it is taken for an IPv6 literal and put in
    brackets. *)
Definition JoinHostPort (host port : string) : string :=
  if contains_char ":" host then "[" +++ host +++ "]:" +++ port
  else host +++ ":" +++ port.

End net.

(** ** Package [api]: the decoded status report *)
Module api.

(** Modelled from the spec: the declarations of package [api]
    ([api.Info] and the services and destinations it holds) are not part
    of the sources; the fields are those of the [/info] response the
    spec lists, with the Go types the program's format verbs require
    (strings for [%s] and [net.JoinHostPort], integers for [%d], bools
    for [%v]). *)
Record Destination := {
  dest_Address : string;
  dest_Port : Z;
  Forward : string;
  Weight : Z;
  ActiveConn : Z;
  InactiveConn : Z;
  Detached : bool;
  Locked : bool
}.

Record Service := {
  Protocol : string;
  Address : string;
  Port : Z;
  Schedule : string;
  Destinations : list Destination
}.

Record Info := { Services : list Service }.

(** The zero value of [var info api.Info]. *)
Definition zero : Info := {| Services := [] |}.

End api.

(** ** Configuration and command-line flags *)

Record apiServerConfig := { URL : string }.

Record cliConfig := {
  Timeout : Z;
  APIServers : list apiServerConfig
}.

(** A flag set after [fs.Parse]: for every flag, the value given on the
    command line, if any.  Reading a flag gives its declared default when
    it was not given. *)
Record infoFlags := { flag_format : option string }.

Record attachFlags := {
  flag_s : option string;
  flag_d : option string;
  flag_lock : option bool
}.

Record unlockFlags := {
  unlock_flag_s : option string;
  unlock_flag_d : option string
}.

Definition format (f : infoFlags) : string := default "text" (flag_format f).
Definition serviceAddr (f : attachFlags) : string := default "" (flag_s f).
Definition destAddr (f : attachFlags) : string := default "" (flag_d f).
Definition lock (f : attachFlags) : bool := default true (flag_lock f).
Definition unlock_serviceAddr (f : unlockFlags) : string :=
  default "" (unlock_flag_s f).
Definition unlock_destAddr (f : unlockFlags) : string :=
  default "" (unlock_flag_d f).

(** ** The network *)

(** A response body is a reader: the chunks its successive [Read] calls
    deliver, then end of file or a read error. *)
Record Body := {
  chunks : list string;
  readErr : option string
}.

(** What [httpClient.Get] returns: an error, or a response whose body is
    still to be read.  The status code is never looked at. *)
Inductive GetResult :=
| GetErr (err : string)
| GetOk (body : Body).

(** [http.Client] with the network behind it: [Get c i u] is the outcome of
    the request that goroutine number [i] makes for URL [u].  A timeout
    shows as an error of the request or as a read error of the body. *)
Record Client := { Get : nat -> string -> GetResult }.

Record cliApp := {
  config : cliConfig;
  httpClient : Client
}.

(** [json.Unmarshal(data, &info)] on a zero [info]: the value [info] holds
    afterwards, and the error if there is one. *)
Definition decoder := string -> api.Info * option string.

(** The application as it runs: linked with package [encoding/json]. *)
Record runtime := {
  cli :> cliApp;
  Unmarshal : decoder
}.

(** ** Effects *)

(** What a goroutine does to the outside, one constructor per call:
    sending the request, one [Read] on the body and the bytes it
    delivered, one [Write] on standard output, one [Write] on standard error, one record
    handed to [ltsvlog.Err]. *)
Inductive event :=
| HttpGet (u : string)
| Recv (chunk : string)
| Stdout (text : string)
| Stderr (text : string)
| LogErr (msg serverURL : string).

Definition LF : string := String "010" "".

(** [ioutil.ReadAll]: all the bytes delivered, and the read error. *)
Definition ReadAll (b : Body) : string * option string :=
  (concat_str (chunks b), readErr b).

Definition reads (b : Body) : list event := map Recv (chunks b).

Definition logErr (err : option string) (msg serverURL : string) : list event :=
  match err with
  | Some _ => [LogErr msg serverURL]
  | None => []
  end.

Definition sendFailed (err : string) : event :=
  Stderr ("failed to send request; " +++ err +++ LF).

(** ** The goroutine of [infoCommand] *)

Definition infoHeader : string :=
  "Prot LocalAddress:Port Scheduler Flags" +++ LF.

Definition infoColumns : string :=
  "  -> RemoteAddress:Port           Forward Weight ActiveConn InActConn Detached Locked"
  +++ LF.

(** ["%-4s %s:%d %s\n"] *)
Definition serviceRow (sr : api.Service) : string :=
  fmt.left 4 (api.Protocol sr) +++ " " +++ api.Address sr +++ ":"
  +++ fmt.d (api.Port sr) +++ " " +++ api.Schedule sr +++ LF.

(** ["  -> %-28s %-7s %-6d %-10d %-9d %-8v %v\n"] *)
Definition destRow (d : api.Destination) : string :=
  let hostPort := net.JoinHostPort (api.dest_Address d) (fmt.d (api.dest_Port d)) in
  "  -> " +++ fmt.left 28 hostPort +++ " " +++ fmt.left 7 (api.Forward d)
  +++ " " +++ fmt.left 6 (fmt.d (api.Weight d))
  +++ " " +++ fmt.left 10 (fmt.d (api.ActiveConn d))
  +++ " " +++ fmt.left 9 (fmt.d (api.InactiveConn d))
  +++ " " +++ fmt.left 8 (fmt.v (api.Detached d))
  +++ " " +++ fmt.v (api.Locked d) +++ LF.

(** A destination whose values are no wider than their columns. *)
Definition fits (d : api.Destination) : Prop :=
  String.length
    (net.JoinHostPort (api.dest_Address d) (fmt.d (api.dest_Port d))) <= 28
  /\ String.length (api.Forward d) <= 7
  /\ String.length (fmt.d (api.Weight d)) <= 6
  /\ String.length (fmt.d (api.ActiveConn d)) <= 10
  /\ String.length (fmt.d (api.InactiveConn d)) <= 9.

(** The rows of one service: its header row, then one row per
    destination. *)
Definition serviceRows (sr : api.Service) : list string :=
  serviceRow sr :: map destRow (api.Destinations sr).

(** The [Printf] calls of [case "text"], one string per call. *)
Definition infoText (serverURL : string) (info : api.Info) : list string :=
  [serverURL +++ ":" +++ LF; infoHeader; infoColumns]
  ++ flat_map serviceRows (api.Services info)
  ++ [LF].

(** ["%s:\n%s\n"], the single [Printf] of [case "json"] and of [attach]
    and [detach]. *)
Definition labelled (serverURL data : string) : string :=
  serverURL +++ ":" +++ LF +++ data +++ LF.

Definition infoURL (s : apiServerConfig) : string := URL s +++ "/info".

Definition infoUnit (a : runtime) (f : infoFlags) (i : nat)
    (s : apiServerConfig) : list event :=
  let u := infoURL s in
  HttpGet u ::
  match Get (httpClient a) i u with
  | GetErr err => [sendFailed err]
  | GetOk body =>
      let '(data, err) := ReadAll body in
      reads body
      ++ logErr err "failed to read response from goloba API server" (URL s)
      ++ (if String.eqb (format f) "json" then
            [Stdout (labelled (URL s) data)]
          else if String.eqb (format f) "text" then
            let '(info, err) := Unmarshal a data in
            logErr err "failed to unmarshal JSON response from goloba API server"
              (URL s)
            ++ map Stdout (infoText (URL s) info)
          else [])
  end.

(** ** The goroutines of [attachCommand] and [detachCommand] *)

(** ["%s/attach?service=%s&dest=%s&lock=%v"], and the same with [detach]. *)
Definition lockURL (verb : string) (f : attachFlags) (s : apiServerConfig)
    : string :=
  URL s +++ "/" +++ verb +++ "?service=" +++ url.QueryEscape (serviceAddr f)
  +++ "&dest=" +++ url.QueryEscape (destAddr f)
  +++ "&lock=" +++ fmt.v (lock f).

Definition attachURL := lockURL "attach".
Definition detachURL := lockURL "detach".

Definition lockUnit (verb : string) (a : runtime) (f : attachFlags) (i : nat)
    (s : apiServerConfig) : list event :=
  let u := lockURL verb f s in
  HttpGet u ::
  match Get (httpClient a) i u with
  | GetErr err => [sendFailed err]
  | GetOk body =>
      let '(data, err) := ReadAll body in
      reads body
      ++ logErr err "failed to read response from goloba API server" (URL s)
      ++ [Stdout (labelled (URL s) data)]
  end.

Definition attachUnit := lockUnit "attach".
Definition detachUnit := lockUnit "detach".

(** ** The goroutine of [unlockCommand] *)

(** ["%s/unlock?service=%s&dest=%s"] *)
Definition unlockURL (f : unlockFlags) (s : apiServerConfig) : string :=
  URL s +++ "/unlock?service=" +++ url.QueryEscape (unlock_serviceAddr f)
  +++ "&dest=" +++ url.QueryEscape (unlock_destAddr f).

(** [io.Copy(os.Stdout, resp.Body)]: every [Read] that delivers bytes is
    followed by one [Write] of those bytes; the copy stops at end of file
    or at a read error, and its result is dropped. *)
Fixpoint Copy (cs : list string) : list event :=
  match cs with
  | [] => []
  | c :: r =>
      Recv c :: (if String.eqb c "" then [] else [Stdout c]) ++ Copy r
  end.

Definition unlockUnit (a : runtime) (f : unlockFlags) (i : nat)
    (s : apiServerConfig) : list event :=
  let u := unlockURL f s in
  HttpGet u ::
  match Get (httpClient a) i u with
  | GetErr err => [sendFailed err]
  | GetOk body => Copy (chunks body)
  end.

(** ** Goroutines and the WaitGroup *)

(** A goroutine started by [go func() { defer wg.Done(); ... }()]: the
    effects it still has to perform, in order; when none is left it runs
    the deferred [wg.Done()] and is finished. *)
Inductive goroutine :=
| Running (todo : list event)
| Finished.

(** Where the command's own function is: in [for _, s := range
    a.config.APIServers] with [rest] still to visit ([Looping []] is the
    call of [wg.Wait()]), or returned. *)
Inductive position :=
| Looping (rest : list apiServerConfig)
| Returned.

Record state := {
  pos : position;
  wg : Z;
  pool : list goroutine;
  history : list (nat * event)
}.

Definition init (servers : list apiServerConfig) : state :=
  {| pos := Looping servers; wg := 0; pool := []; history := [] |}.

(** The effects of goroutine [i] in a history, in the order they
    happened. *)
Fixpoint effects_of (i : nat) (h : list (nat * event)) : list event :=
  match h with
  | [] => []
  | (j, e) :: r =>
      if Nat.eqb j i then e :: effects_of i r else effects_of i r
  end.

Definition is_stdout (e : event) : bool :=
  match e with Stdout _ => true | _ => false end.

(** The texts written to standard output by a list of effects, the texts
    written to standard error, and the URLs requested. *)
Definition stdout_text (e : event) : option string :=
  match e with Stdout t => Some t | _ => None end.

Definition stderr_text (e : event) : option string :=
  match e with Stderr t => Some t | _ => None end.

Definition request_url (e : event) : option string :=
  match e with HttpGet u => Some u | _ => None end.

Definition stdout_writes (es : list event) : list string := omap stdout_text es.
Definition stderr_writes (es : list event) : list string := omap stderr_text es.
Definition requests (es : list event) : list string := omap request_url es.

(** The goroutines that wrote to standard output, write by write, in the
    order of the history. *)
Definition stdout_owner (p : nat * event) : option nat :=
  if is_stdout p.2 then Some p.1 else None.

Definition stdout_owners (h : list (nat * event)) : list nat :=
  omap stdout_owner h.

(** No goroutine's writes are separated by a write of another: once the
    leading writes of [i] are skipped, [i] does not come back. *)
Fixpoint skip_own (i : nat) (l : list nat) : list nat :=
  match l with
  | [] => []
  | j :: r => if Nat.eqb j i then skip_own i r else l
  end.

Fixpoint blocks_intact (l : list nat) : bool :=
  match l with
  | [] => true
  | i :: r => negb (existsb (Nat.eqb i) (skip_own i r)) && blocks_intact r
  end.

Definition todo_of (g : goroutine) : list event :=
  match g with
  | Running es => es
  | Finished => []
  end.

Definition is_running (g : goroutine) : bool :=
  match g with Running _ => true | Finished => false end.

Fixpoint running (p : list goroutine) : nat :=
  match p with
  | [] => 0
  | g :: r => (if is_running g then 1 else 0) + running r
  end.

Section Dispatch.

(** The body of the goroutine started for server [s], the [i]-th of the
    loop. *)
Variable body : nat -> apiServerConfig -> list event.

(** One step of the program: the loop starts a goroutine
    ([wg.Add(1); go ...]); a goroutine performs its next effect; a
    goroutine that has nothing left runs [wg.Done()]; [wg.Wait()]
    returns when the counter is zero. *)
Inductive step : state -> state -> Prop :=
| step_go s rest n p h :
    step {| pos := Looping (s :: rest); wg := n; pool := p; history := h |}
         {| pos := Looping rest; wg := n + 1;
            pool := p ++ [Running (body (length p) s)]; history := h |}
| step_effect i e es q n p h :
    p !! i = Some (Running (e :: es)) ->
    step {| pos := q; wg := n; pool := p; history := h |}
         {| pos := q; wg := n; pool := <[i := Running es]> p;
            history := h ++ [(i, e)] |}
| step_done i q n p h :
    p !! i = Some (Running []) ->
    step {| pos := q; wg := n; pool := p; history := h |}
         {| pos := q; wg := n - 1; pool := <[i := Finished]> p;
            history := h |}
| step_wait p h :
    step {| pos := Looping []; wg := 0; pool := p; history := h |}
         {| pos := Returned; wg := 0; pool := p; history := h |}.

(** A run of the command on a list of servers, up to some state. *)
Definition run (servers : list apiServerConfig) (st : state) : Prop :=
  rtc step (init servers) st.

(** A scheduler's choice: the command's own function moves, or
    goroutine [i] does. *)
Inductive choice := Main | Go (i : nat).

Definition next (c : choice) (st : state) : option state :=
  match c with
  | Main =>
      match pos st with
      | Looping (s :: rest) =>
          Some {| pos := Looping rest; wg := wg st + 1;
                  pool := pool st ++ [Running (body (length (pool st)) s)];
                  history := history st |}
      | Looping [] =>
          if Z.eqb (wg st) 0 then
            Some {| pos := Returned; wg := 0; pool := pool st;
                    history := history st |}
          else None
      | Returned => None
      end
  | Go i =>
      match pool st !! i with
      | Some (Running (e :: es)) =>
          Some {| pos := pos st; wg := wg st;
                  pool := <[i := Running es]> (pool st);
                  history := history st ++ [(i, e)] |}
      | Some (Running []) =>
          Some {| pos := pos st; wg := wg st - 1;
                  pool := <[i := Finished]> (pool st);
                  history := history st |}
      | _ => None
      end
  end.

Fixpoint exec (cs : list choice) (st : state) : option state :=
  match cs with
  | [] => Some st
  | c :: r =>
      match next c st with
      | Some st' => exec r st'
      | None => None
      end
  end.

(** A scheduler that lets the loop start every goroutine and then runs
    the goroutines to their end, the first unfinished one first. *)
Fixpoint first_running (p : list goroutine) : option nat :=
  match p with
  | [] => None
  | Running _ :: _ => Some 0
  | Finished :: r => S <$> first_running r
  end.

Definition pick (st : state) : choice :=
  match pos st with
  | Looping (_ :: _) => Main
  | _ => match first_running (pool st) with
         | Some i => Go i
         | None => Main
         end
  end.

Fixpoint drive (fuel : nat) (st : state) : state :=
  match fuel with
  | O => st
  | S k => match next (pick st) st with
           | Some st' => drive k st'
           | None => st
           end
  end.

(** What is left to do: bounds the number of steps of any run. *)
Fixpoint loop_size (k : nat) (rest : list apiServerConfig) : nat :=
  match rest with
  | [] => 0
  | s :: r => 2 + length (body k s) + loop_size (S k) r
  end.

Definition goroutine_size (g : goroutine) : nat :=
  match g with
  | Running es => 1 + length es
  | Finished => 0
  end.

Definition size (st : state) : nat :=
  match pos st with
  | Looping rest => 1 + loop_size (length (pool st)) rest
  | Returned => 0
  end + sum_list_with goroutine_size (pool st).

Definition rest_of (q : position) : list apiServerConfig :=
  match q with
  | Looping rest => rest
  | Returned => []
  end.

(** The invariant of a run on [servers]. *)
Record inv (servers : list apiServerConfig) (st : state) : Prop := {
  inv_started : exists started,
    servers = started ++ rest_of (pos st)
    /\ length started = length (pool st);
  inv_effects : forall i s g,
    servers !! i = Some s -> pool st !! i = Some g ->
    effects_of i (history st) ++ todo_of g = body i s;
  inv_wg : wg st = Z.of_nat (running (pool st));
  inv_returned : pos st = Returned -> running (pool st) = 0;
  inv_history : forall i e, (i, e) ∈ history st -> i < length (pool st)
}.

End Dispatch.

(** The chunks that [io.Copy] writes: those that hold bytes. *)
Fixpoint written_chunks (cs : list string) : list string :=
  match cs with
  | [] => []
  | c :: r => if String.eqb c "" then written_chunks r else c :: written_chunks r
  end.

(** ** [main]: the choice of the subcommand *)

Inductive command :=
| Info (f : infoFlags)
| Detach (f : attachFlags)
| Attach (f : attachFlags)
| Unlock (f : unlockFlags).

Definition commandUnit (a : runtime) (c : command)
    : nat -> apiServerConfig -> list event :=
  match c with
  | Info f => infoUnit a f
  | Detach f => detachUnit a f
  | Attach f => attachUnit a f
  | Unlock f => unlockUnit a f
  end.

Definition requestURL (c : command) (s : apiServerConfig) : string :=
  match c with
  | Info _ => infoURL s
  | Detach f => detachURL f s
  | Attach f => attachURL f s
  | Unlock f => unlockURL f s
  end.

(** What the format strings put after [s.URL]: the same text for every
    server. *)
Definition lockQuery (f : attachFlags) : string :=
  "service=" +++ url.QueryEscape (serviceAddr f)
  +++ "&dest=" +++ url.QueryEscape (destAddr f)
  +++ "&lock=" +++ fmt.v (lock f).

Definition unlockQuery (f : unlockFlags) : string :=
  "service=" +++ url.QueryEscape (unlock_serviceAddr f)
  +++ "&dest=" +++ url.QueryEscape (unlock_destAddr f).

Definition requestPath (c : command) : string :=
  match c with
  | Info _ => "/info"
  | Detach f => "/detach?" +++ lockQuery f
  | Attach f => "/attach?" +++ lockQuery f
  | Unlock f => "/unlock?" +++ unlockQuery f
  end.

(** The four subcommands: the states their runs go through, on the
    configured servers. *)
Definition infoCommand (a : runtime) (f : infoFlags) : state -> Prop :=
  run (infoUnit a f) (APIServers (config a)).
Definition attachCommand (a : runtime) (f : attachFlags) : state -> Prop :=
  run (attachUnit a f) (APIServers (config a)).
Definition detachCommand (a : runtime) (f : attachFlags) : state -> Prop :=
  run (detachUnit a f) (APIServers (config a)).
Definition unlockCommand (a : runtime) (f : unlockFlags) : state -> Prop :=
  run (unlockUnit a f) (APIServers (config a)).

(** [switch args[0]] in [main]. *)
Definition main (a : runtime) (c : command) : state -> Prop :=
  match c with
  | Info f => infoCommand a f
  | Detach f => detachCommand a f
  | Attach f => attachCommand a f
  | Unlock f => unlockCommand a f
  end.

(** ** Example inputs *)

Definition exampleDestination : api.Destination :=
  {| api.dest_Address := "192.168.122.62"; api.dest_Port := 80;
     api.Forward := "droute"; api.Weight := 100; api.ActiveConn := 0;
     api.InactiveConn := 0; api.Detached := true; api.Locked := false |}.

Definition exampleService : api.Service :=
  {| api.Protocol := "tcp"; api.Address := "192.168.122.2"; api.Port := 80;
     api.Schedule := "wrr"; api.Destinations := [exampleDestination] |}.

Definition exampleInfo : api.Info := {| api.Services := [exampleService] |}.

Definition quoted (s : string) : string := String "034" s +++ String "034" "".

(** The [/info] response that decodes to [exampleInfo]. *)
Definition exampleJSON : string :=
  "{" +++ quoted "services" +++ ":[{" +++ quoted "protocol" +++ ":"
  +++ quoted "tcp" +++ "," +++ quoted "address" +++ ":"
  +++ quoted "192.168.122.2" +++ "," +++ quoted "port" +++ ":80,"
  +++ quoted "schedule" +++ ":" +++ quoted "wrr" +++ ","
  +++ quoted "destinations" +++ ":[{" +++ quoted "address" +++ ":"
  +++ quoted "192.168.122.62" +++ "," +++ quoted "port" +++ ":80,"
  +++ quoted "forward" +++ ":" +++ quoted "droute" +++ ","
  +++ quoted "weight" +++ ":100," +++ quoted "activeConn" +++ ":0,"
  +++ quoted "inactiveConn" +++ ":0," +++ quoted "detached" +++ ":true,"
  +++ quoted "locked" +++ ":false}]}]}".

(** [json.Unmarshal] on the bodies of the examples: the report above, the
    empty object (no services, no error), and text that is not JSON (a
    syntax error, reported before anything is stored). *)
Definition exampleDecoder : decoder := fun data =>
  if String.eqb data exampleJSON then (exampleInfo, None)
  else if String.eqb data "{}" then (api.zero, None)
  else (api.zero, Some "invalid character looking for beginning of value").

Definition lb1 : apiServerConfig := {| URL := "http://lb1:8880" |}.
Definition lb2 : apiServerConfig := {| URL := "http://lb2:8880" |}.

Definition exampleConfig : cliConfig :=
  {| Timeout := 5000; APIServers := [lb1; lb2] |}.

Definition answering (body : Body) : Client :=
  {| Get := fun _ _ => GetOk body |}.

Definition wholeBody (data : string) : Body :=
  {| chunks := [data]; readErr := None |}.

(** Both servers answer the empty object. *)
Definition quietApp : runtime :=
  {| cli := {| config := exampleConfig; httpClient := answering (wholeBody "{}") |};
     Unmarshal := exampleDecoder |}.

(** Both servers answer the example report. *)
Definition reportApp : runtime :=
  {| cli := {| config := exampleConfig; httpClient := answering (wholeBody exampleJSON) |};
     Unmarshal := exampleDecoder |}.

(** Both servers answer text that is not JSON. *)
Definition garbledApp : runtime :=
  {| cli := {| config := exampleConfig; httpClient := answering (wholeBody "oops") |};
     Unmarshal := exampleDecoder |}.

(** The connection breaks after the first bytes of the body. *)
Definition brokenBody : Body :=
  {| chunks := ["par"]; readErr := Some "unexpected EOF" |}.

Definition brokenApp : runtime :=
  {| cli := {| config := exampleConfig; httpClient := answering brokenBody |};
     Unmarshal := exampleDecoder |}.

(** The first server refuses the connection, the second answers. *)
Definition refusedClient : Client :=
  {| Get := fun i _ =>
       if Nat.eqb i 0 then GetErr "dial tcp: connection refused"
       else GetOk (wholeBody "{}") |}.

Definition refusedApp : runtime :=
  {| cli := {| config := exampleConfig; httpClient := refusedClient |};
     Unmarshal := exampleDecoder |}.

Definition textFlags : infoFlags := {| flag_format := None |}.
Definition jsonFlags : infoFlags := {| flag_format := Some "json" |}.
Definition xmlFlags : infoFlags := {| flag_format := Some "xml" |}.

Definition exampleAttach : attachFlags :=
  {| flag_s := Some "192.168.122.2:80"; flag_d := Some "192.168.122.62:80";
     flag_lock := None |}.

Definition exampleUnlock : unlockFlags :=
  {| unlock_flag_s := Some "192.168.122.2:80";
     unlock_flag_d := Some "192.168.122.62:80" |}.

(** A schedule in which the second goroutine of [info] writes its label
    after the first one has written its own and before the first one
    writes its table. *)
Definition interleaved : list choice :=
  [Main; Main] ++ replicate 3 (Go 0) ++ replicate 7 (Go 1)
  ++ replicate 4 (Go 0) ++ [Main].

(** ** [main] before the subcommand: arguments and configuration *)

(** The file system and the YAML decoder: [ioutil.ReadFile] gives the
    bytes of a file or an error, [yaml.Unmarshal] into a zero [cliConfig]
    gives the configuration or an error. *)
Record system := {
  ReadFile : string -> string + string;
  yaml_Unmarshal : string -> string + cliConfig
}.

(** The two errors of [loadConfig], each wrapping the error it got and
    carrying the file name. *)
Inductive loadError :=
| ReadFailed (err configFile : string)
| ParseFailed (err configFile : string).

Definition loadConfig (os : system) (file : string) : loadError + cliConfig :=
  match ReadFile os file with
  | inl err => inl (ReadFailed err file)
  | inr buf =>
      match yaml_Unmarshal os buf with
      | inl err => inl (ParseFailed err file)
      | inr c => inr c
      end
  end.

Inductive subcommand := SubInfo | SubDetach | SubAttach | SubUnlock.

(** The cases of [switch args[0]]. *)
Definition subcommand_of (name : string) : option subcommand :=
  if String.eqb name "info" then Some SubInfo
  else if String.eqb name "detach" then Some SubDetach
  else if String.eqb name "attach" then Some SubAttach
  else if String.eqb name "unlock" then Some SubUnlock
  else None.

(** How [main] goes on after [flag.Parse]: it prints the usage and exits
    with status 1, or writes the configuration error to standard error
    and exits with status 1, or calls a subcommand on the remaining
    arguments with the configuration loaded. *)
Inductive startup :=
| UsageExit
| ConfigExit (e : loadError)
| Call (sub : subcommand) (args : list string) (conf : cliConfig).

(** [configFlag] is the value of [-config] when it was given, [args] what
    [flag.Args()] returns. *)
Definition start (os : system) (configFlag : option string)
    (args : list string) : startup :=
  match args with
  | [] => UsageExit
  | name :: rest =>
      match loadConfig os (default "/etc/goloba/golobactl.yml" configFlag) with
      | inl e => ConfigExit e
      | inr conf =>
          match subcommand_of name with
          | Some sub => Call sub rest conf
          | None => UsageExit
          end
      end
  end.

(** ** More example inputs and helper functions *)

Definition soloApp : runtime :=
  {| cli := {| config := {| Timeout := 5000; APIServers := [lb1] |};
               httpClient := answering (wholeBody exampleJSON) |};
     Unmarshal := exampleDecoder |}.

Definition inTurn : list choice :=
  [Main; Main] ++ replicate 4 (Go 0) ++ replicate 4 (Go 1) ++ [Main].

Definition explicitAttach : attachFlags :=
  {| flag_s := Some "192.168.122.2:80"; flag_d := Some "192.168.122.62:80";
     flag_lock := Some true |}.

(** Every character of [s] satisfies [p]. *)
Fixpoint forall_chars (p : ascii -> bool) (s : string) : bool :=
  match s with
  | "" => true
  | String c r => p c && forall_chars p r
  end.

(** The characters [url.QueryEscape] lets through unchanged. *)
Definition unreserved (c : ascii) : bool := negb (url.shouldEscape c).

(** The characters of an escaped value: the unreserved ones (which
    include the hexadecimal digits), [+] and [%]. *)
Definition query_safe (c : ascii) : bool :=
  unreserved c || Ascii.eqb c "+" || Ascii.eqb c "%".

Definition wideDestination : api.Destination :=
  {| api.dest_Address := "2001:db8:85a3:8d3:1319:8a2e:370:7348";
     api.dest_Port := 8080; api.Forward := "droute"; api.Weight := 100;
     api.ActiveConn := 0; api.InactiveConn := 0; api.Detached := false;
     api.Locked := false |}.

(** The last character of [s] is a newline. *)
Fixpoint ends_with_LF (s : string) : bool :=
  match s with
  | "" => false
  | String c "" => Ascii.eqb c "010"
  | String _ r => ends_with_LF r
  end.

Definition silentBody : Body := {| chunks := [""; ""]; readErr := None |}.

Definition silentApp : runtime :=
  {| cli := {| config := exampleConfig; httpClient := answering silentBody |};
     Unmarshal := exampleDecoder |}.

(** The same bytes as [wholeBody "{}"], delivered by two reads. *)
Definition piecewiseBody : Body := {| chunks := ["{"; "}"]; readErr := None |}.

Definition piecewiseApp : runtime :=
  {| cli := {| config := exampleConfig;
               httpClient := answering piecewiseBody |};
     Unmarshal := exampleDecoder |}.

(** The records handed to [ltsvlog.Err]: message and [serverURL]. *)
Definition log_record (e : event) : option (string * string) :=
  match e with LogErr msg u => Some (msg, u) | _ => None end.

Definition log_records (es : list event) : list (string * string) :=
  omap log_record es.

Definition brokenSystem : system :=
  {| ReadFile := fun _ => inl "open: no such file or directory";
     yaml_Unmarshal := fun _ => inl "yaml: unmarshal errors" |}.

(** * Properties *)

Arguments infoText : simpl never.
Arguments labelled : simpl never.
Arguments sendFailed : simpl never.
Arguments reads : simpl never.
Arguments logErr : simpl never.
Arguments lockURL : simpl never.
Arguments unlockURL : simpl never.
Arguments infoURL : simpl never.
Arguments stdout_writes : simpl never.
Arguments stderr_writes : simpl never.
Arguments requests : simpl never.

(** ** Strings *)

Lemma append_cons x (a b : string) : String x a +++ b = String x (a +++ b).
Proof. reflexivity. Qed.

Lemma append_nil_l (b : string) : "" +++ b = b.
Proof. reflexivity. Qed.

Ltac string_step := rewrite ?append_cons, ?append_nil_l; simpl.

Lemma append_assoc (a b c : string) : (a +++ b) +++ c = a +++ b +++ c.
Proof. induction a as [|x a IH]; string_step; congruence. Qed.

Lemma append_nil_r (a : string) : a +++ "" = a.
Proof. induction a as [|x a IH]; string_step; congruence. Qed.

Lemma length_append (a b : string) :
  String.length (a +++ b) = String.length a + String.length b.
Proof. induction a as [|x a IH]; string_step; congruence. Qed.

Lemma length_repeat_char c n : String.length (repeat_char c n) = n.
Proof. induction n as [|n IH]; simpl; congruence. Qed.

Lemma substring_prefix (mid post : string) :
  substring 0 (String.length mid) (mid +++ post) = mid.
Proof.
  induction mid as [|x mid IH]; string_step; [destruct post; reflexivity|].
  rewrite IH. reflexivity.
Qed.

(** A column: the text that follows [pre] for the length of [mid]. *)
Lemma substring_column (pre mid post : string) n m :
  String.length pre = n -> String.length mid = m ->
  substring n m (pre +++ mid +++ post) = mid.
Proof.
  intros <- <-. induction pre as [|x pre IH]; string_step; [|exact IH].
  apply substring_prefix.
Qed.

Lemma contains_char_append c a b :
  contains_char c (a +++ b) = contains_char c a || contains_char c b.
Proof.
  induction a as [|x a IH]; string_step; [reflexivity|].
  destruct (Ascii.eqb x c); [reflexivity|exact IH].
Qed.

Lemma length_left w s :
  String.length s <= w -> String.length (fmt.left w s) = w.
Proof.
  intros H. unfold fmt.left. rewrite length_append, length_repeat_char. lia.
Qed.

Lemma length_v b : String.length (fmt.v b) <= 8.
Proof. destruct b; simpl; lia. Qed.

(** ** Effects of one goroutine in a history *)

Lemma effects_of_app i h1 h2 :
  effects_of i (h1 ++ h2) = effects_of i h1 ++ effects_of i h2.
Proof.
  induction h1 as [|[j e] h1 IH]; simpl; [reflexivity|].
  destruct (Nat.eqb j i); simpl; congruence.
Qed.

Lemma effects_of_snoc i j e h :
  effects_of i (h ++ [(j, e)]) =
  effects_of i h ++ (if decide (j = i) then [e] else []).
Proof.
  rewrite effects_of_app. simpl. f_equal.
  destruct (decide (j = i)) as [->|Hne].
  - rewrite Nat.eqb_refl. reflexivity.
  - apply Nat.eqb_neq in Hne. rewrite Hne. reflexivity.
Qed.

Lemma effects_of_fresh i h :
  (forall j e, (j, e) ∈ h -> j <> i) -> effects_of i h = [].
Proof.
  induction h as [|[j e] h IH]; intros Hh; [reflexivity|]. simpl.
  destruct (Nat.eqb_spec j i) as [->|_].
  - exfalso. eapply Hh; [left|reflexivity].
  - apply IH. intros k e' Hk. eapply Hh. right. exact Hk.
Qed.

Lemma elem_effects_of i e h : (i, e) ∈ h -> e ∈ effects_of i h.
Proof.
  induction h as [|[j e'] h IH]; intros H; [inversion H|].
  simpl. apply elem_of_cons in H as [[= <- <-]|H].
  - rewrite Nat.eqb_refl. left.
  - destruct (Nat.eqb j i); [right|]; auto.
Qed.

(** A history is, up to the order, the effects of its goroutines put
    together. *)
Lemma concat_add_one {A} (f : nat -> list A) (l : list nat) j (e : A) :
  NoDup l -> j ∈ l ->
  concat (map (fun i => if Nat.eqb j i then e :: f i else f i) l)
  ≡ₚ e :: concat (map f l).
Proof.
  induction 1 as [|i l Hi Hl IH]; intros Hj; [inversion Hj|]. simpl.
  destruct (Nat.eqb_spec j i) as [->|Hne].
  - assert (map (fun k => if Nat.eqb i k then e :: f k else f k) l = map f l)
      as ->; [|reflexivity].
    apply map_ext_in. intros k Hk. apply list_elem_of_In in Hk.
    destruct (Nat.eqb_spec i k) as [->|]; [contradiction|reflexivity].
  - apply elem_of_cons in Hj as [?|Hj]; [contradiction|].
    rewrite (IH Hj). apply Permutation_sym, Permutation_middle.
Qed.

Lemma effects_partition k h :
  (forall i e, (i, e) ∈ h -> i < k) ->
  map snd h ≡ₚ concat (map (fun i => effects_of i h) (seq 0 k)).
Proof.
  induction h as [|[j e] h IH]; intros Hk; simpl.
  - induction (seq 0 k); simpl; auto.
  - rewrite concat_add_one.
    + constructor. apply IH. intros i e' H. eapply Hk. right. exact H.
    + apply NoDup_seq.
    + apply elem_of_seq. specialize (Hk j e (list_elem_of_here _ _)). lia.
Qed.

(** ** Counting the goroutines that have not finished *)

Lemma running_snoc p es : running (p ++ [Running es]) = S (running p).
Proof. induction p as [|g p IH]; simpl; [reflexivity|]. rewrite IH. lia. Qed.

Lemma running_cons g p :
  running (g :: p) = (if is_running g then 1 else 0) + running p.
Proof. reflexivity. Qed.

Lemma running_insert_running p i es es' :
  p !! i = Some (Running es) ->
  running (<[i := Running es']> p) = running p.
Proof.
  revert i. induction p as [|g p IH]; intros [|i] H; simpl in *; try discriminate.
  - injection H as ->. reflexivity.
  - rewrite (IH _ H). reflexivity.
Qed.

Lemma running_insert_finished p i es :
  p !! i = Some (Running es) ->
  S (running (<[i := Finished]> p)) = running p.
Proof.
  revert i. induction p as [|g p IH]; intros [|i] H; simpl in *; try discriminate.
  - injection H as ->. simpl. lia.
  - rewrite <- (IH _ H). lia.
Qed.

Lemma running_zero p i es : running p = 0 -> p !! i <> Some (Running es).
Proof.
  intros H0 H. pose proof (running_insert_finished p i es H). lia.
Qed.

Lemma running_pos p :
  0 < running p -> exists i es, p !! i = Some (Running es).
Proof.
  induction p as [|g p IH]; rewrite ?running_cons.
  - simpl. lia.
  - destruct g as [es|]; simpl.
    + intros _. exists 0, es. reflexivity.
    + intros H. destruct (IH H) as (i & es & Hi). exists (S i), es. exact Hi.
Qed.

Section DispatchFacts.

Variable body : nat -> apiServerConfig -> list event.

Lemma init_inv servers : inv body servers (init servers).
Proof.
  split; simpl.
  - exists []. split; reflexivity.
  - intros i s g _ H. discriminate.
  - reflexivity.
  - discriminate.
  - intros i e H. inversion H.
Qed.

Lemma step_inv servers st st' :
  inv body servers st -> step body st st' -> inv body servers st'.
Proof.
  intros [(started & Hs & Hl) He Hw Hr Hh] Hstep.
  destruct Hstep as [s rest n p h|i e es q n p h Hi|i q n p h Hi|p h];
    simpl in *.
  - split; simpl.
    + exists (started ++ [s]). rewrite <- app_assoc, !length_app. simpl.
      split; [exact Hs|lia].
    + intros i s' g Hsi Hg.
      destruct (decide (i < length p)) as [Hlt|Hge].
      * rewrite lookup_app_l in Hg by exact Hlt. eauto.
      * rewrite lookup_app_r in Hg by lia.
        destruct (i - length p) as [|k] eqn:Hk; simpl in Hg; [|discriminate].
        assert (i = length p) as -> by (apply lookup_lt_Some in Hsi; lia).
        injection Hg as <-. simpl.
        rewrite effects_of_fresh
          by (intros j e' Hj; apply Hh in Hj; lia).
        simpl. f_equal.
        rewrite Hs, lookup_app_r, <- Hl, Nat.sub_diag in Hsi by lia.
        simpl in Hsi. congruence.
    + rewrite running_snoc. lia.
    + discriminate.
    + intros i e Hi. rewrite length_app. simpl. apply Hh in Hi. lia.
  - split; simpl.
    + exists started. rewrite length_insert. auto.
    + intros j s g Hsj Hg. rewrite effects_of_snoc.
      destruct (decide (i = j)) as [->|Hne].
      * rewrite list_lookup_insert_eq in Hg by (eapply lookup_lt_Some; eauto).
        injection Hg as <-. simpl. rewrite <- app_assoc. simpl.
        apply (He j s _ Hsj Hi).
      * rewrite list_lookup_insert_ne in Hg by exact Hne.
        rewrite app_nil_r. eauto.
    + rewrite (running_insert_running _ _ _ _ Hi). exact Hw.
    + intros Hq. exfalso. exact (running_zero _ _ _ (Hr Hq) Hi).
    + intros j e' Hj. rewrite length_insert.
      apply elem_of_app in Hj as [Hj|Hj]; [eauto|].
      apply list_elem_of_singleton in Hj. injection Hj as -> ->.
      eapply lookup_lt_Some; eauto.
  - split; simpl.
    + exists started. rewrite length_insert. auto.
    + intros j s g Hsj Hg.
      destruct (decide (i = j)) as [->|Hne].
      * rewrite list_lookup_insert_eq in Hg by (eapply lookup_lt_Some; eauto).
        injection Hg as <-. apply (He j s _ Hsj Hi).
      * rewrite list_lookup_insert_ne in Hg by exact Hne. eauto.
    + pose proof (running_insert_finished _ _ _ Hi). lia.
    + intros Hq. exfalso. exact (running_zero _ _ _ (Hr Hq) Hi).
    + intros j e' Hj. rewrite length_insert. eauto.
  - split; simpl; eauto. intros _. lia.
Qed.

Lemma run_inv servers st : run body servers st -> inv body servers st.
Proof.
  unfold run. revert st. apply rtc_ind_r.
  - apply init_inv.
  - intros y z _ Hstep IH. eapply step_inv; eauto.
Qed.

(** *** Every step consumes work *)

Lemma goroutine_size_insert (p : list goroutine) i g g' :
  p !! i = Some g ->
  sum_list_with goroutine_size (<[i := g']> p) + goroutine_size g =
  sum_list_with goroutine_size p + goroutine_size g'.
Proof.
  revert i. induction p as [|x p IH]; intros [|i] H; simpl in *;
    try discriminate.
  - injection H as ->. lia.
  - specialize (IH _ H). lia.
Qed.

Lemma step_size st st' : step body st st' -> size body st' < size body st.
Proof.
  intros [s rest n p h|i e es q n p h Hi|i q n p h Hi|p h];
    unfold size; simpl.
  - rewrite sum_list_with_app, length_app. simpl.
    replace (length p + 1) with (S (length p)) by lia. lia.
  - rewrite length_insert.
    pose proof (goroutine_size_insert p i _ (Running es) Hi) as E.
    simpl in E. lia.
  - rewrite length_insert.
    pose proof (goroutine_size_insert p i _ Finished Hi) as E.
    simpl in E. lia.
  - lia.
Qed.

Lemma nsteps_size n st st' :
  nsteps (step body) n st st' -> n + size body st' <= size body st.
Proof.
  induction 1 as [|n x y z Hxy _ IH]; [lia|].
  apply step_size in Hxy. lia.
Qed.

(** *** A command that has not returned can move *)

Lemma progress servers st :
  inv body servers st -> pos st <> Returned -> exists st', step body st st'.
Proof.
  intros [_ _ Hw _ _] Hq. destruct st as [q n p h]. simpl in *.
  destruct q as [[|s rest]|]; [| |congruence].
  - destruct (running p) as [|k] eqn:Hk.
    + subst n. eexists. apply step_wait.
    + destruct (running_pos p) as (i & es & Hi); [lia|].
      destruct es as [|e es]; eexists.
      * apply (step_done body i _ _ _ _ Hi).
      * apply (step_effect body i e es _ _ _ _ Hi).
  - eexists. apply step_go.
Qed.

Lemma can_return servers st :
  inv body servers st ->
  exists st', rtc (step body) st st' /\ pos st' = Returned.
Proof.
  remember (size body st) as m eqn:Hm. revert st Hm.
  induction m as [m IH] using lt_wf_ind. intros st -> Hinv.
  destruct (pos st) as [rest|] eqn:Hq.
  - destruct (progress servers st Hinv) as [st1 H1]; [congruence|].
    destruct (IH _ (step_size _ _ H1) st1 eq_refl (step_inv _ _ _ Hinv H1))
      as (st' & Hrun & Hret).
    exists st'. split; [eapply rtc_l; eauto|exact Hret].
  - exists st. split; [apply rtc_refl|exact Hq].
Qed.

(** *** The scheduler function follows the step relation *)

Lemma next_step c st st' : next body c st = Some st' -> step body st st'.
Proof.
  destruct st as [q n p h]. destruct c as [|i]; simpl.
  - destruct q as [[|s rest]|]; [|intros [= <-]; apply step_go|discriminate].
    destruct (Z.eqb_spec n 0) as [->|]; [|discriminate].
    intros [= <-]. apply step_wait.
  - destruct (p !! i) as [[[|e es]|]|] eqn:Hi; try discriminate;
      intros [= <-].
    + apply step_done. exact Hi.
    + apply step_effect. exact Hi.
Qed.

Lemma exec_rtc cs st st' :
  exec body cs st = Some st' -> rtc (step body) st st'.
Proof.
  revert st. induction cs as [|c cs IH]; simpl; intros st.
  - intros [= <-]. apply rtc_refl.
  - destruct (next body c st) as [st1|] eqn:H1; [|discriminate].
    intros H. eapply rtc_l; [eapply next_step; eauto|apply IH; exact H].
Qed.

Lemma drive_rtc fuel st : rtc (step body) st (drive body fuel st).
Proof.
  revert st. induction fuel as [|k IH]; simpl; intros st; [apply rtc_refl|].
  destruct (next body (pick st) st) as [st'|] eqn:H; [|apply rtc_refl].
  eapply rtc_l; [eapply next_step; eauto|apply IH].
Qed.

(** *** What holds once the command has returned *)

Lemma returned_all_started servers st :
  inv body servers st -> pos st = Returned ->
  length (pool st) = length servers.
Proof.
  intros [(started & Hs & Hl) _ _ _ _] Hq. rewrite Hq in Hs. simpl in Hs.
  rewrite app_nil_r in Hs. congruence.
Qed.

Lemma returned_all_finished servers st i g :
  inv body servers st -> pos st = Returned -> pool st !! i = Some g ->
  g = Finished.
Proof.
  intros Hinv Hq Hg. destruct g as [es|]; [|reflexivity].
  exfalso. exact (running_zero _ _ _ (inv_returned _ _ _ Hinv Hq) Hg).
Qed.

Lemma returned_effects servers st i s :
  inv body servers st -> pos st = Returned -> servers !! i = Some s ->
  effects_of i (history st) = body i s.
Proof.
  intros Hinv Hq Hs.
  pose proof (returned_all_started _ _ Hinv Hq) as Hl.
  destruct (pool st !! i) as [g|] eqn:Hg.
  - pose proof (returned_all_finished _ _ _ _ Hinv Hq Hg) as ->.
    rewrite <- (inv_effects _ _ _ Hinv i s _ Hs Hg). simpl.
    rewrite app_nil_r. reflexivity.
  - apply lookup_ge_None in Hg. apply lookup_lt_Some in Hs. lia.
Qed.

Lemma started_bound servers st :
  inv body servers st -> length (pool st) <= length servers.
Proof.
  intros [(started & Hs & Hl) _ _ _ _].
  apply (f_equal length) in Hs. rewrite length_app in Hs. lia.
Qed.

Lemma history_from_bodies servers st i e :
  inv body servers st -> (i, e) ∈ history st ->
  exists s, servers !! i = Some s /\ e ∈ body i s.
Proof.
  intros Hinv Hie.
  pose proof (inv_history _ _ _ Hinv i e Hie) as Hi.
  pose proof (started_bound _ _ Hinv) as Hb.
  destruct (lookup_lt_is_Some_2 servers i) as [s Hs]; [lia|].
  destruct (lookup_lt_is_Some_2 (pool st) i Hi) as [g Hg].
  exists s. split; [exact Hs|].
  rewrite <- (inv_effects _ _ _ Hinv i s g Hs Hg).
  apply elem_of_app. left. apply elem_effects_of. exact Hie.
Qed.

Lemma returned_history servers st :
  inv body servers st -> pos st = Returned ->
  map snd (history st) ≡ₚ concat (imap body servers).
Proof.
  intros Hinv Hq.
  rewrite (effects_partition (length servers)).
  - assert (map (fun i => effects_of i (history st)) (seq 0 (length servers))
            = imap body servers) as ->; [|reflexivity].
    apply list_eq. intros i. rewrite list_lookup_imap, list_lookup_fmap.
    destruct (servers !! i) as [s|] eqn:Hs; simpl.
    + rewrite lookup_seq_lt by (eapply lookup_lt_Some; eauto). simpl.
      f_equal. eapply returned_effects; eauto.
    + rewrite lookup_seq_ge by (apply lookup_ge_None; exact Hs).
      reflexivity.
  - intros i e H. rewrite <- (returned_all_started _ _ Hinv Hq).
    eapply inv_history; eauto.
Qed.

End DispatchFacts.


(** ** The effects of one goroutine, sorted by kind *)

Lemma stdout_writes_app es1 es2 :
  stdout_writes (es1 ++ es2) = stdout_writes es1 ++ stdout_writes es2.
Proof. apply omap_app. Qed.

Lemma stderr_writes_app es1 es2 :
  stderr_writes (es1 ++ es2) = stderr_writes es1 ++ stderr_writes es2.
Proof. apply omap_app. Qed.

Lemma requests_app es1 es2 :
  requests (es1 ++ es2) = requests es1 ++ requests es2.
Proof. apply omap_app. Qed.

Lemma stdout_writes_cons e es :
  stdout_writes (e :: es) =
  match stdout_text e with Some t => [t] | None => [] end ++ stdout_writes es.
Proof. destruct e; reflexivity. Qed.

Lemma stderr_writes_cons e es :
  stderr_writes (e :: es) =
  match stderr_text e with Some t => [t] | None => [] end ++ stderr_writes es.
Proof. destruct e; reflexivity. Qed.

Lemma requests_cons e es :
  requests (e :: es) =
  match request_url e with Some u => [u] | None => [] end ++ requests es.
Proof. destruct e; reflexivity. Qed.

Lemma stdout_writes_nil : stdout_writes [] = [].
Proof. reflexivity. Qed.

Lemma stderr_writes_nil : stderr_writes [] = [].
Proof. reflexivity. Qed.

Lemma requests_nil : requests [] = [].
Proof. reflexivity. Qed.

Lemma stdout_writes_reads b : stdout_writes (reads b) = [].
Proof. unfold reads. induction (chunks b); [reflexivity|]. exact IHl. Qed.

Lemma stderr_writes_reads b : stderr_writes (reads b) = [].
Proof. unfold reads. induction (chunks b); [reflexivity|]. exact IHl. Qed.

Lemma requests_reads b : requests (reads b) = [].
Proof. unfold reads. induction (chunks b); [reflexivity|]. exact IHl. Qed.

Lemma stdout_writes_logErr err msg u : stdout_writes (logErr err msg u) = [].
Proof. destruct err; reflexivity. Qed.

Lemma stderr_writes_logErr err msg u : stderr_writes (logErr err msg u) = [].
Proof. destruct err; reflexivity. Qed.

Lemma requests_logErr err msg u : requests (logErr err msg u) = [].
Proof. destruct err; reflexivity. Qed.

Lemma stdout_writes_Stdout l : stdout_writes (map Stdout l) = l.
Proof.
  induction l as [|t l IH]; [reflexivity|]. simpl.
  rewrite stdout_writes_cons, IH. reflexivity.
Qed.

Lemma stderr_writes_Stdout l : stderr_writes (map Stdout l) = [].
Proof. induction l as [|t l IH]; [reflexivity|]. exact IH. Qed.

Lemma requests_Stdout l : requests (map Stdout l) = [].
Proof. induction l as [|t l IH]; [reflexivity|]. exact IH. Qed.

Lemma stderr_writes_Copy cs : stderr_writes (Copy cs) = [].
Proof.
  induction cs as [|c cs IH]; [reflexivity|]. simpl.
  destruct (String.eqb c ""); exact IH.
Qed.

Lemma requests_Copy cs : requests (Copy cs) = [].
Proof.
  induction cs as [|c cs IH]; [reflexivity|]. simpl.
  destruct (String.eqb c ""); exact IH.
Qed.

Create Rewrite HintDb effects.
#[local] Hint Rewrite stdout_writes_app stderr_writes_app requests_app
  stdout_writes_reads stderr_writes_reads requests_reads
  stdout_writes_logErr stderr_writes_logErr requests_logErr
  stdout_writes_Stdout stderr_writes_Stdout requests_Stdout
  stderr_writes_Copy requests_Copy
  stdout_writes_cons stderr_writes_cons requests_cons
  stdout_writes_nil stderr_writes_nil requests_nil @app_nil_r : effects.

Ltac effects := autorewrite with effects; simpl.

(** ** Requests *)

Lemma requestURL_path c s : requestURL c s = URL s +++ requestPath c.
Proof. destruct c; reflexivity. Qed.

Lemma infoUnit_requests (a : runtime) f i s : requests (infoUnit a f i s) = [infoURL s].
Proof.
  unfold infoUnit, ReadAll.
  destruct (Get (httpClient a) i (infoURL s)) as [err|b]; [reflexivity|].
  destruct (String.eqb (format f) "json"); [|destruct (String.eqb (format f) "text")];
    [| destruct (Unmarshal a _) as [info e] |];
    effects; reflexivity.
Qed.

Lemma lockUnit_requests verb (a : runtime) f i s :
  requests (lockUnit verb a f i s) = [lockURL verb f s].
Proof.
  unfold lockUnit, ReadAll.
  destruct (Get (httpClient a) i _) as [err|b]; [reflexivity|].
  effects; reflexivity.
Qed.

Lemma unlockUnit_requests (a : runtime) f i s :
  requests (unlockUnit a f i s) = [unlockURL f s].
Proof.
  unfold unlockUnit.
  destruct (Get (httpClient a) i _) as [err|b]; [reflexivity|].
  effects; reflexivity.
Qed.

Lemma commandUnit_requests (a : runtime) c i s :
  requests (commandUnit a c i s) = [requestURL c s].
Proof.
  destruct c; simpl.
  - apply infoUnit_requests.
  - apply lockUnit_requests.
  - apply lockUnit_requests.
  - apply unlockUnit_requests.
Qed.

Lemma requests_concat_imap (body : nat -> apiServerConfig -> list event)
    (g : apiServerConfig -> string) servers :
  (forall i s, requests (body i s) = [g s]) ->
  requests (concat (imap body servers)) = map g servers.
Proof.
  revert body. induction servers as [|s servers IH]; intros body H;
    [reflexivity|].
  rewrite imap_cons. simpl. rewrite requests_app, H. simpl. f_equal.
  apply IH. intros i s'. apply H.
Qed.

Lemma main_inv (a : runtime) c st :
  main a c st -> inv (commandUnit a c) (APIServers (config a)) st.
Proof. destruct c; apply run_inv. Qed.

(** ** C2: one request per target, and the join *)

(** C2. For every subcommand and every list of configured servers, of any
    length N: a run can always be continued until the command returns, a
    command that has not returned can always move, and no run is longer
    than the work that is left, so the command returns under every
    schedule;
    once it has returned, N goroutines were started and all have finished,
    the effects of the i-th one in the history are exactly the body for
    the i-th server, its only request is that server's URL followed by a
    text that is the same for all servers, and the requests of the whole
    history are those N and no other.  With no server configured nothing
    is started and nothing happens. *)
Theorem dispatch_one_request_per_target_and_join
    (a : runtime) (c : command) (st : state) :
  main a c st ->
  (exists st', rtc (step (commandUnit a c)) st st' /\ pos st' = Returned)
  /\ (pos st <> Returned -> exists st', step (commandUnit a c) st st')
  /\ (forall n st', nsteps (step (commandUnit a c)) n st st' ->
        n <= size (commandUnit a c) st)
  /\ (APIServers (config a) = [] -> pool st = [] /\ history st = [])
  /\ (pos st = Returned ->
      length (pool st) = length (APIServers (config a))
      /\ (forall i g, pool st !! i = Some g -> g = Finished)
      /\ (forall i s, APIServers (config a) !! i = Some s ->
            effects_of i (history st) = commandUnit a c i s
            /\ requests (effects_of i (history st)) = [URL s +++ requestPath c])
      /\ requests (map snd (history st))
         ≡ₚ map (fun s => URL s +++ requestPath c) (APIServers (config a))).
Proof.
  intros Hrun. apply main_inv in Hrun. split; [|split; [|split; [|split]]].
  - eapply can_return; eauto.
  - eapply progress; eauto.
  - intros n st' Hn. apply nsteps_size in Hn. lia.
  - intros Hnil. pose proof (started_bound _ _ _ Hrun) as Hb.
    rewrite Hnil in Hb. simpl in Hb.
    assert (pool st = []) as Hp by (destruct (pool st); [reflexivity|simpl in Hb; lia]).
    split; [exact Hp|].
    destruct (history st) as [|[i e] h] eqn:Hh; [reflexivity|].
    pose proof (inv_history _ _ _ Hrun i e) as Hi.
    rewrite Hh, Hp in Hi. specialize (Hi (list_elem_of_here _ _)).
    simpl in Hi. lia.
  - intros Hq. split; [|split; [|split]].
    + eapply returned_all_started; eauto.
    + intros i g. eapply returned_all_finished; eauto.
    + intros i s Hs.
      rewrite (returned_effects _ _ _ _ _ Hrun Hq Hs).
      split; [reflexivity|].
      rewrite commandUnit_requests. f_equal. apply requestURL_path.
    + unfold requests at 1. rewrite (returned_history _ _ _ Hrun Hq).
      fold (requests (concat (imap (commandUnit a c) (APIServers (config a))))).
      rewrite (requests_concat_imap _ (fun s => URL s +++ requestPath c));
        [reflexivity|].
      intros i s. rewrite commandUnit_requests, requestURL_path. reflexivity.
Qed.

Lemma dispatch_one_request_per_target_and_join_witness :
  let st := drive (commandUnit refusedApp (Unlock exampleUnlock)) 20
              (init [lb1; lb2]) in
  pos st = Returned
  /\ requests (map snd (history st))
     ≡ₚ map (fun s => URL s +++ requestPath (Unlock exampleUnlock)) [lb1; lb2].
Proof.
  intros st. split; [vm_compute; reflexivity|].
  apply (dispatch_one_request_per_target_and_join refusedApp
           (Unlock exampleUnlock) st).
  - apply drive_rtc.
  - vm_compute. reflexivity.
Defined.

(** ** What one goroutine writes to standard output and standard error *)

Lemma stdout_writes_Copy cs : stdout_writes (Copy cs) = written_chunks cs.
Proof.
  induction cs as [|c cs IH]; [reflexivity|]. simpl.
  destruct (String.eqb c ""); effects; rewrite IH; reflexivity.
Qed.

Lemma infoUnit_stdout (a : runtime) f i s :
  stdout_writes (infoUnit a f i s) =
  match Get (httpClient a) i (infoURL s) with
  | GetErr _ => []
  | GetOk body =>
      if String.eqb (format f) "json" then
        [labelled (URL s) (concat_str (chunks body))]
      else if String.eqb (format f) "text" then
        infoText (URL s) (Unmarshal a (concat_str (chunks body))).1
      else []
  end.
Proof.
  unfold infoUnit, ReadAll.
  destruct (Get (httpClient a) i (infoURL s)) as [err|b]; [reflexivity|].
  destruct (String.eqb (format f) "json"); [|destruct (String.eqb (format f) "text")];
    [| destruct (Unmarshal a _) as [info e] |];
    effects; reflexivity.
Qed.

Lemma lockUnit_stdout verb (a : runtime) f i s :
  stdout_writes (lockUnit verb a f i s) =
  match Get (httpClient a) i (lockURL verb f s) with
  | GetErr _ => []
  | GetOk body => [labelled (URL s) (concat_str (chunks body))]
  end.
Proof.
  unfold lockUnit, ReadAll.
  destruct (Get (httpClient a) i _) as [err|b]; [reflexivity|].
  effects; reflexivity.
Qed.

Lemma unlockUnit_stdout (a : runtime) f i s :
  stdout_writes (unlockUnit a f i s) =
  match Get (httpClient a) i (unlockURL f s) with
  | GetErr _ => []
  | GetOk body => written_chunks (chunks body)
  end.
Proof.
  unfold unlockUnit.
  destruct (Get (httpClient a) i _) as [err|b]; [reflexivity|].
  effects. rewrite stdout_writes_Copy. reflexivity.
Qed.

Lemma commandUnit_stderr (a : runtime) c i s :
  stderr_writes (commandUnit a c i s) =
  match Get (httpClient a) i (requestURL c s) with
  | GetErr err => ["failed to send request; " +++ err +++ LF]
  | GetOk _ => []
  end.
Proof.
  destruct c as [f|f|f|f]; simpl;
    unfold infoUnit, detachUnit, attachUnit, lockUnit, unlockUnit,
      detachURL, attachURL, ReadAll;
    destruct (Get (httpClient a) i _) as [err|b]; try reflexivity.
  - destruct (String.eqb (format f) "json");
      [|destruct (String.eqb (format f) "text")];
      [| destruct (Unmarshal a _) as [info e] |];
      effects; reflexivity.
  - effects; reflexivity.
  - effects; reflexivity.
  - effects; reflexivity.
Qed.

(** ** Blocks in the history *)

Lemma stdout_owners_count i h :
  count_occ Nat.eq_dec (stdout_owners h) i =
  length (stdout_writes (effects_of i h)).
Proof.
  induction h as [|[j e] h IH]; [reflexivity|].
  assert (stdout_owners ((j, e) :: h) =
          (if is_stdout e then [j] else []) ++ stdout_owners h) as ->
    by (destruct e; reflexivity).
  simpl effects_of.
  destruct (Nat.eqb_spec j i) as [->|Hne].
  - rewrite stdout_writes_cons.
    destruct e; simpl app; rewrite ?count_occ_cons_eq by reflexivity;
      rewrite IH; reflexivity.
  - destruct e; simpl app; rewrite ?count_occ_cons_neq by exact Hne; exact IH.
Qed.

Lemma skip_own_In i j l : In j (skip_own i l) -> In j l.
Proof.
  induction l as [|k l IH]; simpl; [tauto|].
  destruct (Nat.eqb k i); simpl; tauto.
Qed.

Lemma blocks_intact_single l :
  (forall i, count_occ Nat.eq_dec l i <= 1) -> blocks_intact l = true.
Proof.
  induction l as [|i l IH]; intros H; [reflexivity|]. simpl.
  apply andb_true_intro. split.
  - apply negb_true_iff. apply not_true_is_false. intros Hex.
    apply existsb_exists in Hex as (j & Hj & Hij).
    apply Nat.eqb_eq in Hij. subst j. apply skip_own_In in Hj.
    apply (count_occ_In Nat.eq_dec) in Hj.
    specialize (H i). rewrite count_occ_cons_eq in H by reflexivity. lia.
  - apply IH. intros j. specialize (H j).
    destruct (Nat.eq_dec i j) as [->|Hne].
    + rewrite count_occ_cons_eq in H by reflexivity. lia.
    + rewrite count_occ_cons_neq in H by exact Hne. exact H.
Qed.

Section Blocks.

Variable body : nat -> apiServerConfig -> list event.

(** When every goroutine writes at most once, the writes in the history
    have pairwise different owners, at every moment of every run. *)
Lemma single_write_blocks_intact servers st :
  (forall i s, length (stdout_writes (body i s)) <= 1) ->
  inv body servers st ->
  blocks_intact (stdout_owners (history st)) = true.
Proof.
  intros Hone Hinv. apply blocks_intact_single. intros i.
  rewrite stdout_owners_count.
  destruct (decide (i < length (pool st))) as [Hlt|Hge].
  - pose proof (started_bound _ _ _ Hinv) as Hb.
    destruct (lookup_lt_is_Some_2 servers i) as [s Hs]; [lia|].
    destruct (lookup_lt_is_Some_2 (pool st) i Hlt) as [g Hg].
    specialize (Hone i s).
    rewrite <- (inv_effects _ _ _ Hinv i s g Hs Hg) in Hone.
    rewrite stdout_writes_app, length_app in Hone. lia.
  - rewrite effects_of_fresh; [simpl; lia|].
    intros j e Hj ->. apply (inv_history _ _ _ Hinv) in Hj. lia.
Qed.

End Blocks.

Lemma infoText_length u info : 4 <= length (infoText u info).
Proof. unfold infoText. simpl. rewrite length_app. simpl. lia. Qed.

(** ** C1: how a target's block reaches standard output *)

(** C1, as stated, fails: [info] with the default format [text] on two
    servers that both answer the empty object has a complete run in which
    the first goroutine writes its block by four writes, and the four
    writes of the second goroutine lie between the first one's label and
    the first one's table. *)
Lemma blocks_written_atomically_counterexample :
  exists st,
    infoCommand quietApp textFlags st /\ pos st = Returned
    /\ length (stdout_writes (effects_of 0 (history st))) = 4
    /\ stdout_owners (history st) = [0; 1; 1; 1; 1; 0; 0; 0]
    /\ blocks_intact (stdout_owners (history st)) = false.
Proof.
  destruct (exec (infoUnit quietApp textFlags) interleaved (init [lb1; lb2]))
    as [st|] eqn:He; [|vm_compute in He; discriminate].
  exists st. split; [exact (exec_rtc _ _ _ _ He)|].
  vm_compute in He. injection He as <-.
  repeat split; vm_compute; reflexivity.
Qed.

(** C1, amended.  In every complete run of every subcommand, the writes
    of each target's goroutine are in the history in program order, and:
    for [info] with a format other than [text] (so for [json]), for
    [attach] and for [detach] the goroutine writes at most once, its whole
    block being that one write, and no two writes in the history have the
    same owner; for [info] with format [text] a target that answered is
    written line by line, one write per line of the table and at least
    four; for [unlock] a target that answered is written chunk by chunk,
    one write per chunk of the body that holds bytes. *)
Theorem blocks_written_write_by_write
    (a : runtime) (c : command) (st : state) (i : nat) (s : apiServerConfig) :
  main a c st -> pos st = Returned ->
  APIServers (config a) !! i = Some s ->
  stdout_writes (effects_of i (history st)) = stdout_writes (commandUnit a c i s)
  /\ match c with
     | Info f =>
         if String.eqb (format f) "text" then
           forall body, Get (httpClient a) i (infoURL s) = GetOk body ->
             stdout_writes (effects_of i (history st)) =
               infoText (URL s) (Unmarshal a (concat_str (chunks body))).1
             /\ 4 <= length (stdout_writes (effects_of i (history st)))
         else
           length (stdout_writes (effects_of i (history st))) <= 1
           /\ blocks_intact (stdout_owners (history st)) = true
     | Detach f | Attach f =>
         length (stdout_writes (effects_of i (history st))) <= 1
         /\ (forall body, Get (httpClient a) i (requestURL c s) = GetOk body ->
               stdout_writes (effects_of i (history st)) =
                 [labelled (URL s) (concat_str (chunks body))])
         /\ blocks_intact (stdout_owners (history st)) = true
     | Unlock f =>
         forall body, Get (httpClient a) i (unlockURL f s) = GetOk body ->
           stdout_writes (effects_of i (history st)) =
             written_chunks (chunks body)
     end.
Proof.
  intros Hrun Hq Hs. apply main_inv in Hrun.
  rewrite (returned_effects _ _ _ _ _ Hrun Hq Hs).
  split; [reflexivity|].
  destruct c as [f|f|f|f]; simpl in *.
  - destruct (String.eqb (format f) "text") eqn:Ht.
    + intros b Hb. rewrite infoUnit_stdout, Hb, Ht.
      destruct (String.eqb (format f) "json") eqn:Hj.
      * apply String.eqb_eq in Ht, Hj. congruence.
      * split; [reflexivity|apply infoText_length].
    + assert (forall j s', length (stdout_writes (infoUnit a f j s')) <= 1) as H1.
      { intros j s'. rewrite infoUnit_stdout, Ht.
        destruct (Get (httpClient a) j _); [simpl; lia|].
        destruct (String.eqb (format f) "json"); simpl; lia. }
      split; [apply H1|].
      eapply single_write_blocks_intact; eauto.
  - assert (forall j s', length (stdout_writes (detachUnit a f j s')) <= 1) as H1.
    { intros j s'. unfold detachUnit. rewrite lockUnit_stdout.
      destruct (Get (httpClient a) j _); simpl; lia. }
    split; [apply H1|split].
    + intros b Hb. unfold detachUnit, detachURL in *.
      rewrite lockUnit_stdout, Hb. reflexivity.
    + eapply single_write_blocks_intact; eauto.
  - assert (forall j s', length (stdout_writes (attachUnit a f j s')) <= 1) as H1.
    { intros j s'. unfold attachUnit. rewrite lockUnit_stdout.
      destruct (Get (httpClient a) j _); simpl; lia. }
    split; [apply H1|split].
    + intros b Hb. unfold attachUnit, attachURL in *.
      rewrite lockUnit_stdout, Hb. reflexivity.
    + eapply single_write_blocks_intact; eauto.
  - intros b Hb. rewrite unlockUnit_stdout, Hb. reflexivity.
Qed.

Lemma blocks_written_write_by_write_witness :
  let st := drive (commandUnit quietApp (Attach exampleAttach)) 20
              (init [lb1; lb2]) in
  pos st = Returned
  /\ length (stdout_writes (effects_of 1 (history st))) <= 1
  /\ blocks_intact (stdout_owners (history st)) = true.
Proof.
  intros st. split; [vm_compute; reflexivity|].
  pose proof (blocks_written_write_by_write quietApp (Attach exampleAttach)
                st 1 lb2) as H.
  destruct H as (_ & H1 & _ & H2).
  - apply drive_rtc.
  - vm_compute. reflexivity.
  - reflexivity.
  - split; [exact H1|exact H2].
Defined.

(** ** A goroutine depends on its own response only *)

Lemma commandUnit_own_response (a a' : runtime) c i s :
  Get (httpClient a') i (requestURL c s) = Get (httpClient a) i (requestURL c s) ->
  (forall body, Get (httpClient a) i (requestURL c s) = GetOk body ->
     Unmarshal a' (concat_str (chunks body)) =
     Unmarshal a (concat_str (chunks body))) ->
  commandUnit a' c i s = commandUnit a c i s.
Proof.
  intros Hc Hd.
  destruct c as [f|f|f|f]; simpl in *;
    unfold infoUnit, detachUnit, attachUnit, lockUnit, unlockUnit,
      detachURL, attachURL, ReadAll in *;
    rewrite Hc; try reflexivity.
  destruct (Get (httpClient a) i (infoURL s)) as [err|b]; [reflexivity|].
  rewrite (Hd b eq_refl). reflexivity.
Qed.

Lemma commandUnit_request_failed (a : runtime) c i s err :
  Get (httpClient a) i (requestURL c s) = GetErr err ->
  commandUnit a c i s = [HttpGet (requestURL c s); sendFailed err].
Proof.
  intros Hc.
  destruct c as [f|f|f|f]; simpl in *;
    unfold infoUnit, detachUnit, attachUnit, lockUnit, unlockUnit,
      detachURL, attachURL in *;
    rewrite Hc; reflexivity.
Qed.

Lemma commandUnit_read_failed_logged (a : runtime) c i s body e :
  Get (httpClient a) i (requestURL c s) = GetOk body -> readErr body = Some e ->
  match c with
  | Unlock _ => True
  | _ => LogErr "failed to read response from goloba API server" (URL s)
         ∈ commandUnit a c i s
  end.
Proof.
  intros Hc He.
  destruct c as [f|f|f|f]; simpl in *; [| | |exact I];
    unfold infoUnit, detachUnit, attachUnit, lockUnit,
      detachURL, attachURL, ReadAll in *;
    rewrite Hc, He; right; apply elem_of_app; right; left.
Qed.

(** ** C3: a failing target *)

(** C3, as stated, fails for a failure while the body is read: [attach]
    on a server whose connection breaks after the bytes [par] writes
    nothing to standard error, hands a record to the error logger and
    still writes a block for that server, holding the bytes received, to
    the report on standard output. *)
Lemma transport_failure_error_outcome_counterexample :
  Get (httpClient brokenApp) 0 (attachURL exampleAttach lb1) = GetOk brokenBody
  /\ readErr brokenBody = Some "unexpected EOF"
  /\ attachUnit brokenApp exampleAttach 0 lb1 =
       [HttpGet (attachURL exampleAttach lb1); Recv "par";
        LogErr "failed to read response from goloba API server"
          "http://lb1:8880";
        Stdout ("http://lb1:8880:" +++ LF +++ "par" +++ LF)]
  /\ stderr_writes (attachUnit brokenApp exampleAttach 0 lb1) = []
  /\ stdout_writes (attachUnit brokenApp exampleAttach 0 lb1) <> [].
Proof. repeat split; vm_compute; congruence. Qed.

(** C3, amended.  In every run of every subcommand: the run can be
    continued until the command returns, and once it has returned the
    effects of every target's goroutine are in the history in full; what a
    goroutine does depends on the response to its own request only; a
    target whose request fails ([Get] returns an error) has as its whole
    outcome the request and one line on standard error, nothing in the
    report.  A failure that comes later, while the body is read, writes
    nothing to standard error; [info], [attach] and [detach] hand it to
    the error logger, and [attach] and [detach] still write the block with
    the bytes received. *)
Theorem request_failure_is_isolated
    (a : runtime) (c : command) (st : state) (i : nat) (s : apiServerConfig) :
  main a c st ->
  APIServers (config a) !! i = Some s ->
  (exists st', rtc (step (commandUnit a c)) st st' /\ pos st' = Returned)
  /\ (pos st = Returned ->
      forall j s', APIServers (config a) !! j = Some s' ->
        effects_of j (history st) = commandUnit a c j s')
  /\ (forall (a' : runtime) j s',
        Unmarshal a' = Unmarshal a ->
        Get (httpClient a') j (requestURL c s') = Get (httpClient a) j (requestURL c s') ->
        commandUnit a' c j s' = commandUnit a c j s')
  /\ (forall err, Get (httpClient a) i (requestURL c s) = GetErr err ->
        commandUnit a c i s =
          [HttpGet (requestURL c s);
           Stderr ("failed to send request; " +++ err +++ LF)]
        /\ stdout_writes (commandUnit a c i s) = [])
  /\ (forall body e,
        Get (httpClient a) i (requestURL c s) = GetOk body -> readErr body = Some e ->
        stderr_writes (commandUnit a c i s) = []
        /\ match c with
           | Info _ =>
               LogErr "failed to read response from goloba API server" (URL s)
               ∈ commandUnit a c i s
           | Detach _ | Attach _ =>
               LogErr "failed to read response from goloba API server" (URL s)
               ∈ commandUnit a c i s
               /\ stdout_writes (commandUnit a c i s) =
                    [labelled (URL s) (concat_str (chunks body))]
           | Unlock _ => True
           end).
Proof.
  intros Hrun Hs. apply main_inv in Hrun. repeat apply conj.
  - eapply can_return; eauto.
  - intros Hq j s' Hj. eapply returned_effects; eauto.
  - intros a' j s' Hd Hc. apply commandUnit_own_response; [exact Hc|].
    intros b _. rewrite Hd. reflexivity.
  - intros err Hc. rewrite (commandUnit_request_failed _ _ _ _ _ Hc).
    split; reflexivity.
  - intros b e Hc He. split.
    + rewrite commandUnit_stderr, Hc. reflexivity.
    + pose proof (commandUnit_read_failed_logged _ _ _ _ _ _ Hc He) as Hl.
      destruct c as [f|f|f|f]; simpl in *; try exact Hl; try exact I.
      * split; [exact Hl|]. unfold detachUnit, detachURL in *.
        rewrite lockUnit_stdout, Hc. reflexivity.
      * split; [exact Hl|]. unfold attachUnit, attachURL in *.
        rewrite lockUnit_stdout, Hc. reflexivity.
Qed.

Lemma request_failure_is_isolated_witness :
  let st := drive (commandUnit refusedApp (Info textFlags)) 30
              (init [lb1; lb2]) in
  pos st = Returned
  /\ commandUnit refusedApp (Info textFlags) 0 lb1 =
       [HttpGet (requestURL (Info textFlags) lb1);
        Stderr ("failed to send request; " +++ "dial tcp: connection refused"
                +++ LF)]
  /\ effects_of 1 (history st) = commandUnit refusedApp (Info textFlags) 1 lb2.
Proof.
  intros st.
  pose proof (request_failure_is_isolated refusedApp (Info textFlags) st 0 lb1)
    as H.
  destruct H as (_ & Hall & _ & Hfail & _).
  - apply drive_rtc.
  - reflexivity.
  - split; [vm_compute; reflexivity|]. split.
    + apply (Hfail "dial tcp: connection refused"). reflexivity.
    + apply Hall; [vm_compute; reflexivity|reflexivity].
Defined.

(** ** C4: a response that does not decode *)

(** C4, as stated, fails: [info] with format [text] on a server that
    answers text that is not JSON gets an error from the decoder, and
    still writes that server's block: label, the two header lines and the
    closing empty line, the very block of a report without services. *)
Lemma decode_failure_block_omitted_counterexample :
  Get (httpClient garbledApp) 0 (infoURL lb1) = GetOk (wholeBody "oops")
  /\ (Unmarshal garbledApp "oops").2 =
       Some "invalid character looking for beginning of value"
  /\ stdout_writes (infoUnit garbledApp textFlags 0 lb1) =
       ["http://lb1:8880:" +++ LF; infoHeader; infoColumns; LF]
  /\ stdout_writes (infoUnit garbledApp textFlags 0 lb1) =
       infoText (URL lb1) api.zero
  /\ stdout_writes (infoUnit garbledApp textFlags 0 lb1) =
       stdout_writes (infoUnit quietApp textFlags 0 lb1).
Proof. repeat split; vm_compute; reflexivity. Qed.

(** C4, amended.  For [info] with format [text], when the decoder
    returns an error on a target's body, the goroutine hands one record
    to the error logger and then renders the block all the same, from
    whatever the decoder left in [info]: the target's effects are the
    request, the reads, the log record and one write per line of that
    block.  What any goroutine does depends on its own response and its
    own decoding only. *)
Theorem decode_failure_logged_and_rendered
    (a : runtime) (f : infoFlags) (i : nat) (s : apiServerConfig)
    (body : Body) (e : string) :
  format f = "text" ->
  Get (httpClient a) i (infoURL s) = GetOk body ->
  (Unmarshal a (concat_str (chunks body))).2 = Some e ->
  infoUnit a f i s =
    HttpGet (infoURL s) :: reads body
    ++ logErr (readErr body) "failed to read response from goloba API server"
         (URL s)
    ++ [LogErr "failed to unmarshal JSON response from goloba API server"
          (URL s)]
    ++ map Stdout
         (infoText (URL s) (Unmarshal a (concat_str (chunks body))).1)
  /\ stdout_writes (infoUnit a f i s) =
       infoText (URL s) (Unmarshal a (concat_str (chunks body))).1
  /\ stderr_writes (infoUnit a f i s) = []
  /\ (forall (a' : runtime) j s',
        Get (httpClient a') j (infoURL s') = Get (httpClient a) j (infoURL s') ->
        (forall b, Get (httpClient a) j (infoURL s') = GetOk b ->
           Unmarshal a' (concat_str (chunks b)) =
           Unmarshal a (concat_str (chunks b))) ->
        infoUnit a' f j s' = infoUnit a f j s').
Proof.
  intros Hf Hc He. repeat apply conj.
  - unfold infoUnit, ReadAll. rewrite Hc, Hf. simpl String.eqb.
    destruct (Unmarshal a _) as [info err]. simpl in He. subst err.
    reflexivity.
  - rewrite infoUnit_stdout, Hc, Hf. reflexivity.
  - pose proof (commandUnit_stderr a (Info f) i s) as H. simpl in H.
    rewrite H, Hc. reflexivity.
  - intros a' j s' H1 H2.
    exact (commandUnit_own_response a a' (Info f) j s' H1 H2).
Qed.

Lemma decode_failure_logged_and_rendered_witness :
  stdout_writes (infoUnit garbledApp textFlags 1 lb2) =
    infoText (URL lb2) api.zero.
Proof.
  apply (decode_failure_logged_and_rendered garbledApp textFlags 1 lb2
           (wholeBody "oops")
           "invalid character looking for beginning of value");
    reflexivity.
Defined.

(** ** C5: [info] with format [json] *)

(** C5. For [info] with format [json], a target that answered is written
    by one write: its URL, a colon and a newline, then all the bytes of
    the body as they were received, then a newline.  The decoder has no
    part in it: with any other decoder the goroutine does the same. *)
Theorem info_json_passes_body_through
    (a : runtime) (f : infoFlags) (i : nat) (s : apiServerConfig) (body : Body) :
  format f = "json" ->
  Get (httpClient a) i (infoURL s) = GetOk body ->
  stdout_writes (infoUnit a f i s) =
    [URL s +++ ":" +++ LF +++ concat_str (chunks body) +++ LF]
  /\ (forall dec,
        infoUnit {| cli := cli a; Unmarshal := dec |} f i s =
        infoUnit a f i s).
Proof.
  intros Hf Hc. split.
  - rewrite infoUnit_stdout, Hc, Hf. reflexivity.
  - intros dec. unfold infoUnit, ReadAll. simpl cli. rewrite Hc, Hf.
    reflexivity.
Qed.

Lemma info_json_passes_body_through_witness :
  stdout_writes (infoUnit reportApp jsonFlags 0 lb1) =
    ["http://lb1:8880" +++ ":" +++ LF +++ exampleJSON +++ LF].
Proof.
  apply (info_json_passes_body_through reportApp jsonFlags 0 lb1
           (wholeBody exampleJSON)); reflexivity.
Defined.

(** ** C6: the table of [info] with format [text] *)

Lemma destRow_columns d :
  fits d ->
  substring 5 28 (destRow d) =
    fmt.left 28 (net.JoinHostPort (api.dest_Address d) (fmt.d (api.dest_Port d)))
  /\ substring 34 7 (destRow d) = fmt.left 7 (api.Forward d)
  /\ substring 42 6 (destRow d) = fmt.left 6 (fmt.d (api.Weight d))
  /\ substring 49 10 (destRow d) = fmt.left 10 (fmt.d (api.ActiveConn d))
  /\ substring 60 9 (destRow d) = fmt.left 9 (fmt.d (api.InactiveConn d))
  /\ substring 70 8 (destRow d) = fmt.left 8 (fmt.v (api.Detached d)).
Proof.
  intros (H1 & H2 & H3 & H4 & H5).
  pose proof (length_v (api.Detached d)) as H6.
  apply length_left in H1, H2, H3, H4, H5, H6.
  unfold destRow.
  set (c1 := fmt.left 28 _) in *. set (c2 := fmt.left 7 _) in *.
  set (c3 := fmt.left 6 _) in *. set (c4 := fmt.left 10 _) in *.
  set (c5 := fmt.left 9 _) in *. set (c6 := fmt.left 8 _) in *.
  set (c7 := fmt.v (api.Locked d)).
  repeat apply conj.
  - apply (substring_column "  -> "); [reflexivity|exact H1].
  - rewrite <- (substring_column ("  -> " +++ c1 +++ " ") c2
                  (" " +++ c3 +++ " " +++ c4 +++ " " +++ c5 +++ " " +++ c6
                   +++ " " +++ c7 +++ LF) 34 7) at 2;
      [|rewrite !length_append, H1; reflexivity|exact H2].
    rewrite !append_assoc. reflexivity.
  - rewrite <- (substring_column ("  -> " +++ c1 +++ " " +++ c2 +++ " ") c3
                  (" " +++ c4 +++ " " +++ c5 +++ " " +++ c6
                   +++ " " +++ c7 +++ LF) 42 6) at 2;
      [|rewrite !length_append, H1, H2; reflexivity|exact H3].
    rewrite !append_assoc. reflexivity.
  - rewrite <- (substring_column
                  ("  -> " +++ c1 +++ " " +++ c2 +++ " " +++ c3 +++ " ") c4
                  (" " +++ c5 +++ " " +++ c6 +++ " " +++ c7 +++ LF) 49 10) at 2;
      [|rewrite !length_append, H1, H2, H3; reflexivity|exact H4].
    rewrite !append_assoc. reflexivity.
  - rewrite <- (substring_column
                  ("  -> " +++ c1 +++ " " +++ c2 +++ " " +++ c3 +++ " " +++ c4
                   +++ " ") c5
                  (" " +++ c6 +++ " " +++ c7 +++ LF) 60 9) at 2;
      [|rewrite !length_append, H1, H2, H3, H4; reflexivity|exact H5].
    rewrite !append_assoc. reflexivity.
  - rewrite <- (substring_column
                  ("  -> " +++ c1 +++ " " +++ c2 +++ " " +++ c3 +++ " " +++ c4
                   +++ " " +++ c5 +++ " ") c6
                  (" " +++ c7 +++ LF) 70 8) at 2;
      [|rewrite !length_append, H1, H2, H3, H4, H5; reflexivity|exact H6].
    rewrite !append_assoc. reflexivity.
Qed.

(** C6. For [info] with format [text] and a target that answered: when
    the decoded report is the one service [tcp 192.168.122.2:80 wrr] with
    the one destination [192.168.122.62:80, droute, 100, 0, 0, true,
    false], the writes are the label, the header line, the column line,
    the row of the service, one row for the destination, and the closing
    empty line, with the texts below; for any report the writes are the
    label, the two header lines, the rows of the services in order and
    the closing empty line, and a service without destinations gives its
    own row and no other; in the row of a destination whose
    values fit, the address is the 28 characters from offset 5, the
    forward method the 7 from offset 34, the weight the 6 from 42, the
    active count the 10 from 49, the inactive count the 9 from 60 and the
    detached flag the 8 from 70, each left-justified and padded with
    spaces. *)
Theorem info_text_table_rendering
    (a : runtime) (f : infoFlags) (i : nat) (s : apiServerConfig)
    (body : Body) (info : api.Info) (err : option string) :
  format f = "text" ->
  Get (httpClient a) i (infoURL s) = GetOk body ->
  Unmarshal a (concat_str (chunks body)) = (info, err) ->
  (info = exampleInfo ->
     stdout_writes (infoUnit a f i s) =
       [URL s +++ ":" +++ LF;
        "Prot LocalAddress:Port Scheduler Flags" +++ LF;
        "  -> RemoteAddress:Port           Forward Weight ActiveConn InActConn Detached Locked"
        +++ LF;
        "tcp  192.168.122.2:80 wrr" +++ LF;
        "  -> 192.168.122.62:80            droute  100    0          0         true     false"
        +++ LF;
        LF])
  /\ stdout_writes (infoUnit a f i s) =
       [URL s +++ ":" +++ LF; infoHeader; infoColumns]
       ++ flat_map serviceRows (api.Services info) ++ [LF]
  /\ (forall sr, api.Destinations sr = [] ->
        serviceRows sr = [serviceRow sr]
        /\ (info = {| api.Services := [sr] |} ->
            stdout_writes (infoUnit a f i s) =
              [URL s +++ ":" +++ LF; infoHeader; infoColumns; serviceRow sr;
               LF]))
  /\ (forall sr d, In sr (api.Services info) -> In d (api.Destinations sr) ->
        In (destRow d) (stdout_writes (infoUnit a f i s))
        /\ (fits d ->
            substring 34 7 (destRow d) = fmt.left 7 (api.Forward d)
            /\ substring 42 6 (destRow d) = fmt.left 6 (fmt.d (api.Weight d))
            /\ substring 49 10 (destRow d) =
                 fmt.left 10 (fmt.d (api.ActiveConn d))
            /\ substring 60 9 (destRow d) =
                 fmt.left 9 (fmt.d (api.InactiveConn d))
            /\ substring 70 8 (destRow d) =
                 fmt.left 8 (fmt.v (api.Detached d)))).
Proof.
  intros Hf Hc Hd.
  assert (stdout_writes (infoUnit a f i s) = infoText (URL s) info) as ->.
  { rewrite infoUnit_stdout, Hc, Hf, Hd. reflexivity. }
  split; [|split; [|split]].
  - intros ->. reflexivity.
  - reflexivity.
  - intros sr Hsr. unfold serviceRows. rewrite Hsr. split; [reflexivity|].
    intros ->. unfold infoText, serviceRows. simpl. rewrite Hsr.
    reflexivity.
  - intros sr d Hsr Hdd. split.
    + unfold infoText. apply in_or_app. right. apply in_or_app. left.
      apply in_flat_map. exists sr. split; [assumption|].
      right. apply in_map. assumption.
    + intros Hfit. destruct (destRow_columns d Hfit) as (_ & H). exact H.
Qed.

Lemma info_text_table_rendering_witness :
  stdout_writes (infoUnit reportApp textFlags 0 lb1) =
    ["http://lb1:8880" +++ ":" +++ LF;
     "Prot LocalAddress:Port Scheduler Flags" +++ LF;
     "  -> RemoteAddress:Port           Forward Weight ActiveConn InActConn Detached Locked"
     +++ LF;
     "tcp  192.168.122.2:80 wrr" +++ LF;
     "  -> 192.168.122.62:80            droute  100    0          0         true     false"
     +++ LF;
     LF].
Proof.
  apply (info_text_table_rendering reportApp textFlags 0 lb1
           (wholeBody exampleJSON) exampleInfo None);
    reflexivity.
Defined.

(** ** C9: [info] with an unknown format *)

Lemma stdout_writes_none l :
  (forall e, e ∈ l -> stdout_text e = None) -> stdout_writes l = [].
Proof.
  induction l as [|e l IH]; intros H; [reflexivity|].
  rewrite stdout_writes_cons, (H e) by left. simpl.
  apply IH. intros e' He'. apply H. right. exact He'.
Qed.

Lemma stdout_writes_nil_elem l e :
  stdout_writes l = [] -> e ∈ l -> stdout_text e = None.
Proof.
  induction l as [|x l IH]; intros Hl He; [inversion He|].
  rewrite stdout_writes_cons in Hl. apply app_eq_nil in Hl as [Hx Hl].
  apply elem_of_cons in He as [->|He].
  - destruct (stdout_text x); [discriminate|reflexivity].
  - apply IH; assumption.
Qed.

Lemma history_no_stdout body servers st :
  inv body servers st ->
  (forall i s, stdout_writes (body i s) = []) ->
  stdout_writes (map snd (history st)) = [].
Proof.
  intros Hinv Hb. apply stdout_writes_none. intros e He.
  apply list_elem_of_In, in_map_iff in He as ([i e'] & <- & Hie).
  apply list_elem_of_In in Hie.
  destruct (history_from_bodies _ _ _ _ _ Hinv Hie) as (s & _ & Hin).
  exact (stdout_writes_nil_elem _ _ (Hb i s) Hin).
Qed.

(** C9. For [info] with a format that is neither [text] nor [json]:
    every goroutine still sends its request, and when the request
    succeeds reads the whole body and does nothing else, apart from
    logging a read error; no goroutine writes to standard output, so at
    every moment of every run the report is empty; the run can be
    continued until the command returns, and by then the requests sent are
    those for the configured servers. *)
Theorem info_unknown_format_prints_nothing
    (a : runtime) (f : infoFlags) (st : state) :
  format f <> "text" -> format f <> "json" ->
  infoCommand a f st ->
  stdout_writes (map snd (history st)) = []
  /\ (exists st', rtc (step (infoUnit a f)) st st' /\ pos st' = Returned)
  /\ (pos st = Returned ->
      requests (map snd (history st))
      ≡ₚ map infoURL (APIServers (config a)))
  /\ (forall i s,
        stdout_writes (infoUnit a f i s) = []
        /\ requests (infoUnit a f i s) = [infoURL s]
        /\ (forall body, Get (httpClient a) i (infoURL s) = GetOk body ->
              infoUnit a f i s =
                HttpGet (infoURL s) :: reads body
                ++ logErr (readErr body)
                     "failed to read response from goloba API server" (URL s))).
Proof.
  intros Ht Hj Hrun. apply run_inv in Hrun. simpl in Hrun.
  apply String.eqb_neq in Ht, Hj.
  assert (forall i s, stdout_writes (infoUnit a f i s) = []) as Hnone.
  { intros i s. rewrite infoUnit_stdout, Hj, Ht.
    destruct (Get (httpClient a) i _); reflexivity. }
  split; [|split; [|split]].
  - eapply history_no_stdout; eauto.
  - eapply can_return; eauto.
  - intros Hq. unfold requests at 1. rewrite (returned_history _ _ _ Hrun Hq).
    fold (requests (concat (imap (infoUnit a f) (APIServers (config a))))).
    rewrite (requests_concat_imap _ infoURL); [reflexivity|].
    intros i s. apply infoUnit_requests.
  - intros i s. split; [apply Hnone|]. split; [apply infoUnit_requests|].
    intros b Hc. unfold infoUnit, ReadAll. rewrite Hc, Hj, Ht.
    rewrite app_nil_r. reflexivity.
Qed.

Lemma info_unknown_format_prints_nothing_witness :
  let st := drive (infoUnit reportApp xmlFlags) 20 (init [lb1; lb2]) in
  pos st = Returned
  /\ length (history st) = 4
  /\ stdout_writes (map snd (history st)) = [].
Proof.
  intros st. split; [vm_compute; reflexivity|].
  split; [vm_compute; reflexivity|].
  apply (info_unknown_format_prints_nothing reportApp xmlFlags st).
  - vm_compute. discriminate.
  - vm_compute. discriminate.
  - apply drive_rtc.
Defined.

(** ** C10: the output of [unlock] and the label of the others *)

Lemma concat_written_chunks cs :
  concat_str (written_chunks cs) = concat_str cs.
Proof.
  induction cs as [|c cs IH]; [reflexivity|]. simpl.
  destruct (String.eqb_spec c "") as [->|_]; simpl; rewrite IH; reflexivity.
Qed.

(** C10. For every subcommand and target: when the request fails
    nothing is written to standard output; when it succeeds, [unlock]
    writes the bytes of the body and nothing else, no label before them
    and no newline after them, [attach] and [detach] write the target's
    URL, a colon and a newline, then the body, then a newline, and [info]
    with format [json] or [text] writes text that begins with the
    target's URL, a colon and a newline. *)
Theorem unlock_output_is_raw_body
    (a : runtime) (c : command) (i : nat) (s : apiServerConfig) :
  (forall err, Get (httpClient a) i (requestURL c s) = GetErr err ->
     stdout_writes (commandUnit a c i s) = [])
  /\ (forall body, Get (httpClient a) i (requestURL c s) = GetOk body ->
        match c with
        | Unlock f =>
            concat_str (stdout_writes (unlockUnit a f i s)) =
              concat_str (chunks body)
        | Detach f =>
            stdout_writes (detachUnit a f i s) =
              [URL s +++ ":" +++ LF +++ concat_str (chunks body) +++ LF]
        | Attach f =>
            stdout_writes (attachUnit a f i s) =
              [URL s +++ ":" +++ LF +++ concat_str (chunks body) +++ LF]
        | Info f =>
            format f = "json" \/ format f = "text" ->
            exists rest,
              concat_str (stdout_writes (infoUnit a f i s)) =
                URL s +++ ":" +++ LF +++ rest
        end).
Proof.
  split.
  - intros err Hc. rewrite (commandUnit_request_failed _ _ _ _ _ Hc).
    reflexivity.
  - intros b Hc. destruct c as [f|f|f|f]; simpl in *.
    + rewrite infoUnit_stdout, Hc. intros [Hf|Hf]; rewrite Hf.
      * exists (concat_str (chunks b) +++ LF). simpl String.eqb. cbv iota.
        unfold labelled. simpl. rewrite append_nil_r. reflexivity.
      * simpl String.eqb. cbv iota. unfold infoText. simpl.
        eexists. rewrite !append_assoc. reflexivity.
    + unfold detachUnit, detachURL in *. rewrite lockUnit_stdout, Hc.
      reflexivity.
    + unfold attachUnit, attachURL in *. rewrite lockUnit_stdout, Hc.
      reflexivity.
    + rewrite unlockUnit_stdout, Hc. apply concat_written_chunks.
Qed.

Lemma unlock_output_is_raw_body_witness :
  concat_str (stdout_writes (unlockUnit quietApp exampleUnlock 0 lb1)) = "{}".
Proof.
  destruct (unlock_output_is_raw_body quietApp (Unlock exampleUnlock) 0 lb1)
    as [_ H].
  apply (H (wholeBody "{}")). reflexivity.
Defined.

(** ** Query strings *)

Lemma QueryEscape_cons c r :
  url.QueryEscape (String c r) =
  url.QueryEscape (String c "") +++ url.QueryEscape r.
Proof.
  simpl. destruct (Ascii.eqb c " "); [reflexivity|].
  destruct (url.shouldEscape c); reflexivity.
Qed.

Lemma escaped_char_no_amp c :
  contains_char "&" (url.QueryEscape (String c "")) = false.
Proof. destruct c as [[] [] [] [] [] [] [] []]; reflexivity. Qed.

Lemma escaped_char_no_eq c :
  contains_char "=" (url.QueryEscape (String c "")) = false.
Proof. destruct c as [[] [] [] [] [] [] [] []]; reflexivity. Qed.

Lemma escaped_char_no_question c :
  contains_char "?" (url.QueryEscape (String c "")) = false.
Proof. destruct c as [[] [] [] [] [] [] [] []]; reflexivity. Qed.

Lemma QueryEscape_no_amp v : contains_char "&" (url.QueryEscape v) = false.
Proof.
  induction v as [|c v IH]; [reflexivity|].
  rewrite QueryEscape_cons, contains_char_append, escaped_char_no_amp, IH.
  reflexivity.
Qed.

Lemma QueryEscape_no_eq v : contains_char "=" (url.QueryEscape v) = false.
Proof.
  induction v as [|c v IH]; [reflexivity|].
  rewrite QueryEscape_cons, contains_char_append, escaped_char_no_eq, IH.
  reflexivity.
Qed.

Lemma QueryEscape_no_question v :
  contains_char "?" (url.QueryEscape v) = false.
Proof.
  induction v as [|c v IH]; [reflexivity|].
  rewrite QueryEscape_cons, contains_char_append, escaped_char_no_question, IH.
  reflexivity.
Qed.

Lemma unescape_escaped_char c t :
  url.QueryUnescape (url.QueryEscape (String c "") +++ t) =
  match url.QueryUnescape t with
  | Some t' => Some (String c t')
  | None => None
  end.
Proof. destruct c as [[] [] [] [] [] [] [] []]; reflexivity. Qed.

Lemma QueryUnescape_QueryEscape v :
  url.QueryUnescape (url.QueryEscape v) = Some v.
Proof.
  induction v as [|c v IH]; [reflexivity|].
  rewrite QueryEscape_cons, unescape_escaped_char, IH. reflexivity.
Qed.

Lemma split_on_none sep s :
  contains_char sep s = false -> url.split_on sep s = [s].
Proof.
  induction s as [|c s IH]; simpl; [reflexivity|].
  destruct (Ascii.eqb c sep); [discriminate|].
  intros H. rewrite (IH H). reflexivity.
Qed.

Lemma split_on_app sep a b :
  contains_char sep a = false ->
  url.split_on sep (a +++ String sep b) = a :: url.split_on sep b.
Proof.
  induction a as [|c a IH]; string_step.
  - rewrite Ascii.eqb_refl. reflexivity.
  - destruct (Ascii.eqb c sep); [discriminate|].
    intros H. rewrite (IH H). reflexivity.
Qed.

Lemma rawQuery_app base q :
  contains_char "?" base = false -> url.rawQuery (base +++ String "?" q) = q.
Proof.
  induction base as [|c base IH]; string_step; [reflexivity|].
  destruct (Ascii.eqb c "?"); [discriminate|]. exact IH.
Qed.

Lemma params_two_or_three (a b : string) (rest : string) :
  contains_char "&" a = false -> contains_char "&" b = false ->
  url.params ("service=" +++ a +++ "&dest=" +++ b) =
    [("service", a); ("dest", b)]
  /\ (contains_char "&" rest = false ->
      url.params ("service=" +++ a +++ "&dest=" +++ b +++ "&lock=" +++ rest) =
        [("service", a); ("dest", b); ("lock", rest)]).
Proof.
  intros Ha Hb.
  assert (contains_char "&" ("service=" +++ a) = false) as Ha'
    by (rewrite contains_char_append, Ha; reflexivity).
  assert (contains_char "&" ("dest=" +++ b) = false) as Hb'
    by (rewrite contains_char_append, Hb; reflexivity).
  unfold url.params. split.
  - change ("service=" +++ a +++ "&dest=" +++ b)
      with ("service=" +++ a +++ String "&" ("dest=" +++ b)).
    rewrite <- append_assoc, (split_on_app _ _ _ Ha'), (split_on_none _ _ Hb').
    reflexivity.
  - intros Hr.
    assert (contains_char "&" ("lock=" +++ rest) = false) as Hr'
      by (rewrite contains_char_append, Hr; reflexivity).
    change ("service=" +++ a +++ "&dest=" +++ b +++ "&lock=" +++ rest)
      with ("service=" +++ a +++ String "&"
              ("dest=" +++ b +++ String "&" ("lock=" +++ rest))).
    rewrite <- append_assoc, (split_on_app _ _ _ Ha').
    rewrite <- (append_assoc "dest=" b), (split_on_app _ _ _ Hb'),
      (split_on_none _ _ Hr').
    reflexivity.
Qed.

Lemma params_lockQuery f :
  url.params (lockQuery f) =
    [("service", url.QueryEscape (serviceAddr f));
     ("dest", url.QueryEscape (destAddr f));
     ("lock", fmt.v (lock f))].
Proof.
  apply params_two_or_three; try apply QueryEscape_no_amp.
  destruct (lock f); reflexivity.
Qed.

Lemma params_unlockQuery f :
  url.params (unlockQuery f) =
    [("service", url.QueryEscape (unlock_serviceAddr f));
     ("dest", url.QueryEscape (unlock_destAddr f))].
Proof.
  apply (params_two_or_three _ _ ""); apply QueryEscape_no_amp.
Qed.

Lemma lockURL_query verb f s :
  lockURL verb f s = URL s +++ "/" +++ verb +++ "?" +++ lockQuery f.
Proof. reflexivity. Qed.

Lemma unlockURL_query f s :
  unlockURL f s = URL s +++ "/unlock?" +++ unlockQuery f.
Proof. reflexivity. Qed.

Lemma rawQuery_lockURL verb f s :
  contains_char "?" (URL s) = false -> contains_char "?" verb = false ->
  url.rawQuery (lockURL verb f s) = lockQuery f.
Proof.
  intros Hs Hv. rewrite lockURL_query.
  change (URL s +++ "/" +++ verb +++ "?" +++ lockQuery f)
    with (URL s +++ "/" +++ verb +++ String "?" (lockQuery f)).
  rewrite <- (append_assoc "/"), <- append_assoc.
  apply rawQuery_app. rewrite !contains_char_append, Hs, Hv. reflexivity.
Qed.

Lemma rawQuery_unlockURL f s :
  contains_char "?" (URL s) = false ->
  url.rawQuery (unlockURL f s) = unlockQuery f.
Proof.
  intros Hs. rewrite unlockURL_query.
  change (URL s +++ "/unlock?" +++ unlockQuery f)
    with (URL s +++ "/unlock" +++ String "?" (unlockQuery f)).
  rewrite <- append_assoc.
  apply rawQuery_app. rewrite contains_char_append, Hs. reflexivity.
Qed.

(** ** C7: the [lock] parameter *)

(** C7. For [attach] and [detach] called without the [lock] flag, the
    request of every target is the target's URL, the path, a question
    mark and a query whose parameters are [service], [dest] and
    [lock=true], in this order; for [unlock] the query has the two
    parameters [service] and [dest] and no other, so no [lock].  When the
    target's URL has no question mark of its own, that query is the raw
    query of the request. *)
Theorem lock_parameter_default_and_absence
    (a : runtime) (i : nat) (s : apiServerConfig) :
  (forall verb f,
     verb = "attach" \/ verb = "detach" -> flag_lock f = None ->
     requests (lockUnit verb a f i s) = [lockURL verb f s]
     /\ lockURL verb f s = URL s +++ "/" +++ verb +++ "?" +++ lockQuery f
     /\ url.params (lockQuery f) =
          [("service", url.QueryEscape (serviceAddr f));
           ("dest", url.QueryEscape (destAddr f));
           ("lock", "true")]
     /\ (contains_char "?" (URL s) = false ->
         url.params (url.rawQuery (lockURL verb f s)) =
           [("service", url.QueryEscape (serviceAddr f));
            ("dest", url.QueryEscape (destAddr f));
            ("lock", "true")]))
  /\ (forall f,
        requests (unlockUnit a f i s) = [unlockURL f s]
        /\ unlockURL f s = URL s +++ "/unlock?" +++ unlockQuery f
        /\ url.params (unlockQuery f) =
             [("service", url.QueryEscape (unlock_serviceAddr f));
              ("dest", url.QueryEscape (unlock_destAddr f))]
        /\ (contains_char "?" (URL s) = false ->
            url.params (url.rawQuery (unlockURL f s)) =
              [("service", url.QueryEscape (unlock_serviceAddr f));
               ("dest", url.QueryEscape (unlock_destAddr f))])).
Proof.
  split.
  - intros verb f Hverb Hlock.
    assert (fmt.v (lock f) = "true") as Hv
      by (unfold lock; rewrite Hlock; reflexivity).
    split; [apply lockUnit_requests|]. split; [apply lockURL_query|].
    split.
    + rewrite params_lockQuery, Hv. reflexivity.
    + intros Hs. rewrite rawQuery_lockURL, params_lockQuery, Hv;
        [reflexivity|exact Hs|].
      destruct Hverb as [->| ->]; reflexivity.
  - intros f. split; [apply unlockUnit_requests|].
    split; [apply unlockURL_query|]. split; [apply params_unlockQuery|].
    intros Hs. rewrite rawQuery_unlockURL by exact Hs.
    apply params_unlockQuery.
Qed.

Lemma lock_parameter_default_and_absence_witness :
  url.params (url.rawQuery (lockURL "attach" exampleAttach lb1)) =
    [("service", "192.168.122.2%3A80"); ("dest", "192.168.122.62%3A80");
     ("lock", "true")].
Proof.
  destruct (lock_parameter_default_and_absence quietApp 0 lb1) as [H _].
  destruct (H "attach" exampleAttach) as (_ & _ & _ & Hq).
  - left. reflexivity.
  - reflexivity.
  - apply Hq. reflexivity.
Defined.

(** ** C8: the values of [service] and [dest] *)

(** C8. For [attach], [detach] and [unlock], whatever the values of the
    flags [-s] and [-d], given or not: the values of the parameters
    [service] and [dest] in the query of every target's request are the
    escaped forms of the flags' values; a flag that was not given counts
    as the empty string, whose escaped form is empty; the escaped form
    holds no [&], [=] or [?], and unescaping it gives the value back. *)
Theorem query_values_are_percent_encoded
    (a : runtime) (i : nat) (s : apiServerConfig) :
  (forall verb f,
     requests (lockUnit verb a f i s) = [lockURL verb f s]
     /\ lockURL verb f s = URL s +++ "/" +++ verb +++ "?" +++ lockQuery f
     /\ url.params (lockQuery f) =
          [("service", url.QueryEscape (default "" (flag_s f)));
           ("dest", url.QueryEscape (default "" (flag_d f)));
           ("lock", fmt.v (lock f))])
  /\ (forall f,
        requests (unlockUnit a f i s) = [unlockURL f s]
        /\ unlockURL f s = URL s +++ "/unlock?" +++ unlockQuery f
        /\ url.params (unlockQuery f) =
             [("service", url.QueryEscape (default "" (unlock_flag_s f)));
              ("dest", url.QueryEscape (default "" (unlock_flag_d f)))])
  /\ url.QueryEscape "" = ""
  /\ (forall v,
        url.QueryUnescape (url.QueryEscape v) = Some v
        /\ contains_char "&" (url.QueryEscape v) = false
        /\ contains_char "=" (url.QueryEscape v) = false
        /\ contains_char "?" (url.QueryEscape v) = false).
Proof.
  split; [|split; [|split]].
  - intros verb f. split; [apply lockUnit_requests|].
    split; [apply lockURL_query|apply params_lockQuery].
  - intros f. split; [apply unlockUnit_requests|].
    split; [apply unlockURL_query|apply params_unlockQuery].
  - reflexivity.
  - intros v. split; [apply QueryUnescape_QueryEscape|].
    split; [apply QueryEscape_no_amp|].
    split; [apply QueryEscape_no_eq|apply QueryEscape_no_question].
Qed.


(** * Further properties of the dispatch *)

Lemma running_le_length p : running p <= length p.
Proof.
  induction p as [|g p IH]; simpl; [lia|]. destruct (is_running g); lia.
Qed.

(** X1. In every state of every run of every subcommand, the WaitGroup
    counter is the number of goroutines that were started and have not
    run their deferred [wg.Done()]; it is never negative, never larger
    than the number of configured servers, and zero once [wg.Wait()] has
    returned. *)
Theorem waitgroup_counts_unfinished_goroutines
    (a : runtime) (c : command) (st : state) :
  main a c st ->
  wg st = Z.of_nat (running (pool st))
  /\ (0 <= wg st <= Z.of_nat (length (APIServers (config a))))%Z
  /\ (pos st = Returned -> wg st = 0%Z).
Proof.
  intros Hrun. apply main_inv in Hrun.
  pose proof (inv_wg _ _ _ Hrun) as Hw.
  pose proof (running_le_length (pool st)) as Hr.
  pose proof (started_bound _ _ _ Hrun) as Hb.
  split; [exact Hw|]. split; [lia|].
  intros Hq. rewrite Hw, (inv_returned _ _ _ Hrun Hq). reflexivity.
Qed.

Lemma waitgroup_counts_unfinished_goroutines_witness :
  let st := drive (commandUnit quietApp (Attach exampleAttach)) 5
              (init [lb1; lb2]) in
  wg st = 2%Z /\ wg st = Z.of_nat (running (pool st)).
Proof.
  intros st. split; [vm_compute; reflexivity|].
  apply (waitgroup_counts_unfinished_goroutines quietApp
           (Attach exampleAttach) st).
  apply drive_rtc.
Defined.

Lemma effects_of_elem i e h : e ∈ effects_of i h -> (i, e) ∈ h.
Proof.
  induction h as [|[j e'] h IH]; simpl; intros H; [inversion H|].
  destruct (Nat.eqb_spec j i) as [->|_].
  - apply elem_of_cons in H as [->|H]; [left|right; auto].
  - right. auto.
Qed.

Lemma commandUnit_head (a : runtime) c i s :
  exists rest, commandUnit a c i s = HttpGet (requestURL c s) :: rest.
Proof. destruct c; eexists; reflexivity. Qed.

(** X2. In every state of every run of every subcommand, whatever a
    goroutine has done besides its request (a read of the body, a write
    to standard output or standard error, a log record) comes after that
    goroutine's request in the history: nothing is printed for a target
    before the request to it was sent. *)
Theorem request_precedes_every_other_effect
    (a : runtime) (c : command) (st : state) (i : nat) (e : event)
    (h1 h2 : list (nat * event)) :
  main a c st ->
  history st = h1 ++ (i, e) :: h2 ->
  request_url e = None ->
  exists s, APIServers (config a) !! i = Some s
            /\ (i, HttpGet (requestURL c s)) ∈ h1.
Proof.
  intros Hrun Hh He. apply main_inv in Hrun.
  assert ((i, e) ∈ history st) as Hin
    by (rewrite Hh; apply elem_of_app; right; left).
  pose proof (inv_history _ _ _ Hrun i e Hin) as Hi.
  pose proof (started_bound _ _ _ Hrun) as Hb.
  destruct (lookup_lt_is_Some_2 (APIServers (config a)) i) as [s Hs]; [lia|].
  destruct (lookup_lt_is_Some_2 (pool st) i Hi) as [g Hg].
  exists s. split; [exact Hs|].
  pose proof (inv_effects _ _ _ Hrun i s g Hs Hg) as Heff.
  destruct (commandUnit_head a c i s) as [rest Hrest].
  rewrite Hh, effects_of_app, Hrest in Heff. simpl in Heff.
  rewrite Nat.eqb_refl in Heff.
  destruct (effects_of i h1) as [|x l] eqn:H1; simpl in Heff.
  - injection Heff as -> _. discriminate.
  - injection Heff as -> _. apply effects_of_elem. rewrite H1. left.
Qed.

Lemma request_precedes_every_other_effect_witness :
  exists s, APIServers (config quietApp) !! 1 = Some s
            /\ (1, HttpGet (requestURL (Info textFlags) s))
               ∈ [(0, HttpGet "http://lb1:8880/info"); (0, Recv "{}");
                  (0, Stdout ("http://lb1:8880:" +++ LF));
                  (1, HttpGet "http://lb2:8880/info"); (1, Recv "{}")].
Proof.
  destruct (exec (infoUnit quietApp textFlags) interleaved (init [lb1; lb2]))
    as [st|] eqn:He; [|vm_compute in He; discriminate].
  apply (request_precedes_every_other_effect quietApp (Info textFlags) st 1
           (Stdout ("http://lb2:8880:" +++ LF)) _
           [(1, Stdout infoHeader); (1, Stdout infoColumns); (1, Stdout LF);
            (0, Stdout infoHeader); (0, Stdout infoColumns); (0, Stdout LF)]).
  - exact (exec_rtc _ _ _ _ He).
  - vm_compute in He. injection He as <-. reflexivity.
  - reflexivity.
Defined.

(** ** What the history holds once the command has returned *)

Lemma stdout_writes_concat_imap (body : nat -> apiServerConfig -> list event)
    servers :
  stdout_writes (concat (imap body servers)) =
  concat (imap (fun i s => stdout_writes (body i s)) servers).
Proof.
  revert body. induction servers as [|s servers IH]; intros body;
    [reflexivity|].
  rewrite !imap_cons. simpl. rewrite stdout_writes_app. f_equal. apply IH.
Qed.

Lemma stderr_writes_concat_imap (body : nat -> apiServerConfig -> list event)
    servers :
  stderr_writes (concat (imap body servers)) =
  concat (imap (fun i s => stderr_writes (body i s)) servers).
Proof.
  revert body. induction servers as [|s servers IH]; intros body;
    [reflexivity|].
  rewrite !imap_cons. simpl. rewrite stderr_writes_app. f_equal. apply IH.
Qed.

(** X3. Once a subcommand has returned, the lines on standard error are,
    up to their order, one line [failed to send request; <error>] for
    every target whose request failed and nothing else; and a target that
    has such a line has nothing in the report: no goroutine writes to
    both. *)
Theorem one_stderr_line_per_failed_request
    (a : runtime) (c : command) (st : state) :
  main a c st -> pos st = Returned ->
  stderr_writes (map snd (history st))
  ≡ₚ concat (imap (fun i s =>
                     match Get (httpClient a) i (requestURL c s) with
                     | GetErr err => ["failed to send request; " +++ err +++ LF]
                     | GetOk _ => []
                     end) (APIServers (config a)))
  /\ (forall i s,
        stderr_writes (commandUnit a c i s) = []
        \/ stdout_writes (commandUnit a c i s) = []).
Proof.
  intros Hrun Hq. apply main_inv in Hrun. split.
  - unfold stderr_writes at 1. rewrite (returned_history _ _ _ Hrun Hq).
    fold (stderr_writes
            (concat (imap (commandUnit a c) (APIServers (config a))))).
    rewrite stderr_writes_concat_imap.
    assert (imap (fun i s => stderr_writes (commandUnit a c i s))
              (APIServers (config a)) =
            imap (fun i s =>
                    match Get (httpClient a) i (requestURL c s) with
                    | GetErr err => ["failed to send request; " +++ err +++ LF]
                    | GetOk _ => []
                    end) (APIServers (config a))) as ->; [|reflexivity].
    apply imap_ext. intros i s _. apply commandUnit_stderr.
  - intros i s. rewrite commandUnit_stderr.
    destruct (Get (httpClient a) i (requestURL c s)) as [err|b] eqn:Hc;
      [right|left; reflexivity].
    rewrite (commandUnit_request_failed _ _ _ _ _ Hc). reflexivity.
Qed.

Lemma one_stderr_line_per_failed_request_witness :
  let st := drive (commandUnit refusedApp (Detach exampleAttach)) 20
              (init [lb1; lb2]) in
  stderr_writes (map snd (history st))
  ≡ₚ ["failed to send request; " +++ "dial tcp: connection refused" +++ LF].
Proof.
  intros st.
  apply (one_stderr_line_per_failed_request refusedApp (Detach exampleAttach)
           st).
  - apply drive_rtc.
  - vm_compute. reflexivity.
Defined.

(** X4. Once a subcommand has returned, the writes on standard output
    are, up to their order, the writes of all the goroutines put
    together: every write of every target is there once, none is lost and
    none is repeated, and those of one target are in its own order. *)
Theorem report_holds_every_write_once
    (a : runtime) (c : command) (st : state) :
  main a c st -> pos st = Returned ->
  stdout_writes (map snd (history st))
  ≡ₚ concat (imap (fun i s => stdout_writes (commandUnit a c i s))
               (APIServers (config a)))
  /\ (forall i s, APIServers (config a) !! i = Some s ->
        stdout_writes (effects_of i (history st)) =
        stdout_writes (commandUnit a c i s)).
Proof.
  intros Hrun Hq. apply main_inv in Hrun. split.
  - unfold stdout_writes at 1. rewrite (returned_history _ _ _ Hrun Hq).
    fold (stdout_writes
            (concat (imap (commandUnit a c) (APIServers (config a))))).
    rewrite stdout_writes_concat_imap. reflexivity.
  - intros i s Hs. rewrite (returned_effects _ _ _ _ _ Hrun Hq Hs).
    reflexivity.
Qed.

Lemma report_holds_every_write_once_witness :
  let st := drive (commandUnit refusedApp (Unlock exampleUnlock)) 20
              (init [lb1; lb2]) in
  stdout_writes (map snd (history st)) ≡ₚ ["{}"].
Proof.
  intros st.
  apply (report_holds_every_write_once refusedApp (Unlock exampleUnlock) st).
  - apply drive_rtc.
  - vm_compute. reflexivity.
Defined.

(** ** One server *)

Lemma effects_of_only i h :
  (forall j e, (j, e) ∈ h -> j = i) -> effects_of i h = map snd h.
Proof.
  induction h as [|[j e] h IH]; intros H; [reflexivity|]. simpl.
  rewrite (H j e) by left. rewrite Nat.eqb_refl. f_equal.
  apply IH. intros k e' Hk. apply (H k e'). right. exact Hk.
Qed.

(** X5. With exactly one configured server there is nothing to
    interleave: in every state of every run the history is the beginning
    of that server's goroutine, effect by effect, and once the command
    has returned it is all of it, so the output is the same in every
    run. *)
Theorem single_target_history_is_sequential
    (a : runtime) (c : command) (st : state) (s : apiServerConfig) :
  APIServers (config a) = [s] ->
  main a c st ->
  (exists rest, commandUnit a c 0 s = map snd (history st) ++ rest)
  /\ (pos st = Returned -> map snd (history st) = commandUnit a c 0 s).
Proof.
  intros Hone Hrun. apply main_inv in Hrun. rewrite Hone in Hrun.
  pose proof (started_bound _ _ _ Hrun) as Hb. simpl in Hb.
  assert (effects_of 0 (history st) = map snd (history st)) as Heff.
  { apply effects_of_only. intros j e Hj.
    apply (inv_history _ _ _ Hrun) in Hj. lia. }
  split.
  - destruct (pool st) as [|g p] eqn:Hp.
    + exists (commandUnit a c 0 s).
      destruct (history st) as [|[j e] h] eqn:Hh; [reflexivity|].
      pose proof (inv_history _ _ _ Hrun j e) as Hj.
      rewrite Hh, Hp in Hj. specialize (Hj (list_elem_of_here _ _)).
      simpl in Hj. lia.
    + exists (todo_of g). rewrite <- Heff. symmetry.
      apply (inv_effects _ _ _ Hrun 0 s g); [reflexivity|].
      rewrite Hp. reflexivity.
  - intros Hq. rewrite <- Heff.
    apply (returned_effects _ _ _ _ _ Hrun Hq). reflexivity.
Qed.

Lemma single_target_history_is_sequential_witness :
  let st := drive (commandUnit soloApp (Info textFlags)) 20 (init [lb1]) in
  pos st = Returned
  /\ map snd (history st) = commandUnit soloApp (Info textFlags) 0 lb1.
Proof.
  intros st. split; [vm_compute; reflexivity|].
  apply (single_target_history_is_sequential soloApp (Info textFlags) st lb1).
  - reflexivity.
  - apply drive_rtc.
  - vm_compute. reflexivity.
Defined.

(** ** The length of a run *)

Section Steps.

Variable body : nat -> apiServerConfig -> list event.

Lemma step_size_exact st st' :
  step body st st' -> size body st = S (size body st').
Proof.
  intros [s rest n p h|i e es q n p h Hi|i q n p h Hi|p h];
    unfold size; simpl.
  - rewrite sum_list_with_app, length_app. simpl.
    replace (length p + 1) with (S (length p)) by lia. lia.
  - rewrite length_insert.
    pose proof (goroutine_size_insert p i _ (Running es) Hi) as E.
    simpl in E. lia.
  - rewrite length_insert.
    pose proof (goroutine_size_insert p i _ Finished Hi) as E.
    simpl in E. lia.
  - lia.
Qed.

Lemma nsteps_size_exact n st st' :
  nsteps (step body) n st st' -> size body st = n + size body st'.
Proof.
  induction 1 as [|n x y z Hxy _ IH]; [reflexivity|].
  apply step_size_exact in Hxy. lia.
Qed.

Lemma nothing_running_size p :
  running p = 0 -> sum_list_with goroutine_size p = 0.
Proof.
  induction p as [|g p IH]; simpl; [reflexivity|].
  destruct g as [es|]; simpl; [lia|exact IH].
Qed.

Lemma loop_size_effects k servers :
  loop_size body k servers =
  2 * length servers
  + length (concat (imap (fun i => body (k + i)) servers)).
Proof.
  revert k. induction servers as [|s servers IH]; intros k; [reflexivity|].
  rewrite imap_cons. simpl. rewrite length_app, IH, Nat.add_0_r.
  assert (imap (fun i => body (S k + i)) servers =
          imap ((fun i => body (k + i)) ∘ S) servers) as ->.
  { apply imap_ext. intros i x _. simpl.
    replace (k + S i) with (S (k + i)) by lia. reflexivity. }
  rewrite (Nat.add_0_r k). lia.
Qed.

End Steps.

(** X6. Every run of a subcommand that ends with the command returned
    has the same number of steps, whatever the schedule: one for
    [wg.Wait()], two for every configured server (starting its goroutine,
    its [wg.Done()]) and one for every effect of every goroutine. *)
Theorem every_schedule_has_the_same_length
    (a : runtime) (c : command) (n : nat) (st : state) :
  nsteps (step (commandUnit a c)) n (init (APIServers (config a))) st ->
  pos st = Returned ->
  n = 1 + 2 * length (APIServers (config a))
      + length (concat (imap (commandUnit a c) (APIServers (config a)))).
Proof.
  intros Hn Hq.
  assert (inv (commandUnit a c) (APIServers (config a)) st) as Hinv
    by (apply run_inv; eapply rtc_nsteps_2; eauto).
  apply nsteps_size_exact in Hn.
  assert (size (commandUnit a c) st = 0) as H0.
  { unfold size. rewrite Hq. simpl.
    apply nothing_running_size. apply (inv_returned _ _ _ Hinv Hq). }
  rewrite H0, Nat.add_0_r in Hn. rewrite <- Hn.
  unfold size, init. simpl. rewrite loop_size_effects.
  change (fun i => commandUnit a c (0 + i)) with (commandUnit a c). lia.
Qed.

Lemma exec_nsteps body cs st st' :
  exec body cs st = Some st' -> nsteps (step body) (length cs) st st'.
Proof.
  revert st. induction cs as [|c cs IH]; simpl; intros st.
  - intros [= <-]. constructor.
  - destruct (next body c st) as [st1|] eqn:H1; [|discriminate].
    intros H. econstructor; [eapply next_step; eauto|apply IH; exact H].
Qed.

Lemma every_schedule_has_the_same_length_witness :
  11 = 1 + 2 * 2
       + length (concat (imap (commandUnit quietApp (Unlock exampleUnlock))
                           [lb1; lb2])).
Proof.
  destruct (exec (commandUnit quietApp (Unlock exampleUnlock)) inTurn
              (init [lb1; lb2])) as [st|] eqn:He;
    [|vm_compute in He; discriminate].
  apply (every_schedule_has_the_same_length quietApp (Unlock exampleUnlock)
           11 st).
  - exact (exec_nsteps _ _ _ _ He).
  - vm_compute in He. injection He as <-. reflexivity.
Defined.

(** ** The request and the flags *)

Lemma v_inj b b' : fmt.v b = fmt.v b' -> b = b'.
Proof. destruct b, b'; simpl; congruence. Qed.

Lemma QueryEscape_inj v w : url.QueryEscape v = url.QueryEscape w -> v = w.
Proof.
  intros H. apply (f_equal url.QueryUnescape) in H.
  rewrite !QueryUnescape_QueryEscape in H. congruence.
Qed.

(** X7. The request tells the parameters apart: for one server, two
    [attach] (or two [detach]) requests are the same URL only when the
    service address, the destination address and the lock value are the
    same, and two [unlock] requests only when both addresses are. *)
Theorem request_url_determines_parameters
    (s : apiServerConfig) (verb : string) :
  (forall f f', lockURL verb f s = lockURL verb f' s ->
     serviceAddr f = serviceAddr f' /\ destAddr f = destAddr f'
     /\ lock f = lock f')
  /\ (forall g g', unlockURL g s = unlockURL g' s ->
        unlock_serviceAddr g = unlock_serviceAddr g'
        /\ unlock_destAddr g = unlock_destAddr g').
Proof.
  split.
  - intros f f' H. rewrite !lockURL_query in H.
    do 4 apply (inj (String.append _)) in H.
    apply (f_equal url.params) in H. rewrite !params_lockQuery in H.
    injection H as H1 H2 H3.
    split; [apply QueryEscape_inj; exact H1|].
    split; [apply QueryEscape_inj; exact H2|apply v_inj; exact H3].
  - intros g g' H. rewrite !unlockURL_query in H.
    do 2 apply (inj (String.append _)) in H.
    apply (f_equal url.params) in H. rewrite !params_unlockQuery in H.
    injection H as H1 H2.
    split; apply QueryEscape_inj; assumption.
Qed.

Lemma request_url_determines_parameters_witness :
  serviceAddr exampleAttach = serviceAddr explicitAttach
  /\ destAddr exampleAttach = destAddr explicitAttach
  /\ lock exampleAttach = lock explicitAttach.
Proof.
  destruct (request_url_determines_parameters lb1 "attach") as [Hl _].
  apply Hl. reflexivity.
Defined.

(** ** Escaping *)

Lemma forall_chars_append p a b :
  forall_chars p (a +++ b) = forall_chars p a && forall_chars p b.
Proof.
  induction a as [|x a IH]; string_step; [reflexivity|].
  rewrite IH. apply andb_assoc.
Qed.

Lemma escaped_char_safe c :
  forall_chars query_safe (url.QueryEscape (String c "")) = true.
Proof. destruct c as [[] [] [] [] [] [] [] []]; reflexivity. Qed.

Lemma escaped_char_unreserved c :
  unreserved c = true -> url.QueryEscape (String c "") = String c "".
Proof.
  destruct c as [[] [] [] [] [] [] [] []]; intros H; vm_compute in H;
    try discriminate H; reflexivity.
Qed.

Lemma escaped_char_length c :
  1 <= String.length (url.QueryEscape (String c "")) <= 3.
Proof. destruct c as [[] [] [] [] [] [] [] []]; vm_compute; lia. Qed.

Lemma QueryEscape_append v w :
  url.QueryEscape (v +++ w) = url.QueryEscape v +++ url.QueryEscape w.
Proof.
  induction v as [|c v IH]; [reflexivity|].
  rewrite append_cons, QueryEscape_cons, IH, (QueryEscape_cons c v).
  symmetry. apply append_assoc.
Qed.

(** X8. What [url.QueryEscape] puts into the query, for every value of a
    flag: only letters, digits, [- _ . ~], [+] and [%]; a value made of
    letters, digits and [- _ . ~] alone goes through unchanged; escaping
    goes piece by piece, the escaped form of two values put together
    being the two escaped forms put together; and the escaped form is at
    least as long as the value and at most three times as long. *)
Theorem query_escape_alphabet_and_length (v : string) :
  forall_chars query_safe (url.QueryEscape v) = true
  /\ (forall_chars unreserved v = true -> url.QueryEscape v = v)
  /\ (forall w, url.QueryEscape (v +++ w) =
                url.QueryEscape v +++ url.QueryEscape w)
  /\ String.length v <= String.length (url.QueryEscape v)
     <= 3 * String.length v.
Proof.
  split; [|split; [|split]].
  - induction v as [|c v IH]; [reflexivity|].
    rewrite QueryEscape_cons, forall_chars_append, escaped_char_safe, IH.
    reflexivity.
  - induction v as [|c v IH]; [reflexivity|]. simpl forall_chars.
    intros H. apply andb_prop in H as [Hc Hv].
    rewrite QueryEscape_cons, (escaped_char_unreserved c Hc), (IH Hv).
    reflexivity.
  - intros w. apply QueryEscape_append.
  - induction v as [|c v IH]; [simpl; lia|].
    rewrite QueryEscape_cons, length_append.
    pose proof (escaped_char_length c).
    change (String.length (String c v)) with (S (String.length v)). lia.
Qed.

Lemma query_escape_alphabet_and_length_witness :
  url.QueryEscape "lb-1.example_org~" = "lb-1.example_org~".
Proof.
  destruct (query_escape_alphabet_and_length "lb-1.example_org~")
    as (_ & H & _).
  apply H. reflexivity.
Defined.

(** ** The width of a destination row *)

Lemma length_left_max w s :
  String.length (fmt.left w s) = Nat.max w (String.length s).
Proof.
  unfold fmt.left. rewrite length_append, length_repeat_char. lia.
Qed.

Lemma length_destRow d :
  String.length (destRow d) =
  5 + Nat.max 28 (String.length
                    (net.JoinHostPort (api.dest_Address d)
                       (fmt.d (api.dest_Port d))))
  + 1 + Nat.max 7 (String.length (api.Forward d))
  + 1 + Nat.max 6 (String.length (fmt.d (api.Weight d)))
  + 1 + Nat.max 10 (String.length (fmt.d (api.ActiveConn d)))
  + 1 + Nat.max 9 (String.length (fmt.d (api.InactiveConn d)))
  + 1 + 8 + 1 + String.length (fmt.v (api.Locked d)) + 1.
Proof.
  unfold destRow. rewrite !length_append, !length_left_max.
  pose proof (length_v (api.Detached d)).
  change (String.length "  -> ") with 5.
  change (String.length " ") with 1. change (String.length LF) with 1.
  lia.
Qed.

(** X9. A value wider than its column is never cut: the address of a
    destination stands in full at offset 5 of its row, every column is as
    wide as the wider of its width and its value, and the row has its
    regular length, 80 characters and the locked flag, exactly when every
    value fits its column; otherwise it is longer and what follows the
    too-wide value is pushed to the right. *)
Theorem destination_row_never_truncates (d : api.Destination) :
  substring 5
    (String.length
       (net.JoinHostPort (api.dest_Address d) (fmt.d (api.dest_Port d))))
    (destRow d) =
    net.JoinHostPort (api.dest_Address d) (fmt.d (api.dest_Port d))
  /\ 80 + String.length (fmt.v (api.Locked d)) <= String.length (destRow d)
  /\ (fits d <->
      String.length (destRow d) = 80 + String.length (fmt.v (api.Locked d))).
Proof.
  split; [|split].
  - unfold destRow, fmt.left at 1. cbv zeta.
    rewrite (append_assoc (net.JoinHostPort _ _)).
    apply (substring_column "  -> "); reflexivity.
  - rewrite length_destRow. lia.
  - rewrite length_destRow. unfold fits. lia.
Qed.

Lemma destination_row_never_truncates_witness :
  String.length (destRow exampleDestination) = 85
  /\ 85 < String.length (destRow wideDestination).
Proof.
  split.
  - apply (destination_row_never_truncates exampleDestination).
    unfold fits. vm_compute. repeat split; lia.
  - vm_compute. lia.
Defined.

(** ** The number of lines of the table *)

Lemma length_flat_map_serviceRows services :
  length (flat_map serviceRows services) =
  sum_list_with (fun sr => S (length (api.Destinations sr))) services.
Proof.
  induction services as [|sr services IH]; [reflexivity|]. simpl.
  rewrite length_app, length_map, IH. reflexivity.
Qed.

(** X10. For [info] with format [text], a target that answered is
    written by four writes (label, two header lines, closing empty line)
    and one more for every service and for every destination of the
    decoded report, whether the decoder reported an error or not. *)
Theorem info_text_write_count
    (a : runtime) (f : infoFlags) (i : nat) (s : apiServerConfig)
    (body : Body) :
  format f = "text" ->
  Get (httpClient a) i (infoURL s) = GetOk body ->
  length (stdout_writes (infoUnit a f i s)) =
    4 + sum_list_with (fun sr => S (length (api.Destinations sr)))
          (api.Services (Unmarshal a (concat_str (chunks body))).1).
Proof.
  intros Hf Hc. rewrite infoUnit_stdout, Hc, Hf. simpl String.eqb. cbv iota.
  unfold infoText. rewrite !length_app, length_flat_map_serviceRows.
  simpl. lia.
Qed.

Lemma info_text_write_count_witness :
  length (stdout_writes (infoUnit reportApp textFlags 0 lb1)) = 6.
Proof.
  apply (info_text_write_count reportApp textFlags 0 lb1
           (wholeBody exampleJSON)); reflexivity.
Defined.

(** ** Whole lines *)

Lemma ends_with_LF_append a b :
  ends_with_LF b = true -> ends_with_LF (a +++ b) = true.
Proof.
  intros Hb. induction a as [|x a IH]; string_step; [exact Hb|].
  destruct (a +++ b) as [|y r] eqn:E; [discriminate IH|exact IH].
Qed.

Ltac whole_line :=
  repeat first [reflexivity | apply ends_with_LF_append].

Lemma infoText_whole_lines u info t :
  t ∈ infoText u info -> ends_with_LF t = true.
Proof.
  unfold infoText. intros H.
  apply elem_of_app in H as [H|H]; [|apply elem_of_app in H as [H|H]].
  - repeat (apply elem_of_cons in H as [->|H]); [| |  |inversion H];
      unfold infoHeader, infoColumns; whole_line.
  - apply list_elem_of_In, in_flat_map in H as (sr & _ & H).
    destruct H as [<-|H].
    + unfold serviceRow. whole_line.
    + apply in_map_iff in H as (d & <- & _). unfold destRow. whole_line.
  - apply list_elem_of_singleton in H as ->. reflexivity.
Qed.

Lemma stdout_writes_elem es t : Stdout t ∈ es -> t ∈ stdout_writes es.
Proof.
  intros H. apply list_elem_of_omap. exists (Stdout t). split; [exact H|].
  reflexivity.
Qed.

Lemma stderr_writes_elem es t : Stderr t ∈ es -> t ∈ stderr_writes es.
Proof.
  intros H. apply list_elem_of_omap. exists (Stderr t). split; [exact H|].
  reflexivity.
Qed.

(** X11. Apart from [unlock], every write is a whole line: in every
    state of every run of [info], [attach] and [detach], each text written
    to standard output ends with a newline, and for every subcommand so
    does each text written to standard error.  Writes of different
    targets can alternate, but never in the middle of a line. *)
Theorem every_write_is_a_whole_line
    (a : runtime) (c : command) (st : state) (i : nat) (t : string) :
  main a c st ->
  ((i, Stderr t) ∈ history st -> ends_with_LF t = true)
  /\ ((i, Stdout t) ∈ history st ->
      match c with Unlock _ => True | _ => ends_with_LF t = true end).
Proof.
  intros Hrun. apply main_inv in Hrun. split.
  - intros Hin.
    destruct (history_from_bodies _ _ _ _ _ Hrun Hin) as (s & _ & He).
    apply stderr_writes_elem in He. rewrite commandUnit_stderr in He.
    destruct (Get (httpClient a) i (requestURL c s)); [|inversion He].
    apply list_elem_of_singleton in He as ->. whole_line.
  - intros Hin.
    destruct (history_from_bodies _ _ _ _ _ Hrun Hin) as (s & _ & He).
    apply stdout_writes_elem in He.
    destruct c as [f|f|f|f]; simpl in *; [| | |exact I].
    + rewrite infoUnit_stdout in He.
      destruct (Get (httpClient a) i (infoURL s)); [inversion He|].
      destruct (String.eqb (format f) "json").
      * apply list_elem_of_singleton in He as ->. unfold labelled. whole_line.
      * destruct (String.eqb (format f) "text"); [|inversion He].
        eapply infoText_whole_lines; eauto.
    + unfold detachUnit in He. rewrite lockUnit_stdout in He.
      destruct (Get (httpClient a) i _); [inversion He|].
      apply list_elem_of_singleton in He as ->. unfold labelled. whole_line.
    + unfold attachUnit in He. rewrite lockUnit_stdout in He.
      destruct (Get (httpClient a) i _); [inversion He|].
      apply list_elem_of_singleton in He as ->. unfold labelled. whole_line.
Qed.

Lemma every_write_is_a_whole_line_witness :
  ends_with_LF ("http://lb2:8880:" +++ LF) = true.
Proof.
  destruct (exec (infoUnit quietApp textFlags) interleaved (init [lb1; lb2]))
    as [st|] eqn:He; [|vm_compute in He; discriminate].
  destruct (every_write_is_a_whole_line quietApp (Info textFlags) st 1
              ("http://lb2:8880:" +++ LF)) as [_ H].
  - exact (exec_rtc _ _ _ _ He).
  - apply H. vm_compute in He. injection He as <-.
    do 5 right. left.
Defined.

(** ** An empty answer *)

Lemma append_eq_nil (a b : string) : a +++ b = "" -> a = "" /\ b = "".
Proof. destruct a; [auto|discriminate]. Qed.

Lemma written_chunks_empty cs : concat_str cs = "" -> written_chunks cs = [].
Proof.
  induction cs as [|c cs IH]; [reflexivity|]. simpl. intros H.
  apply append_eq_nil in H as [-> H]. simpl. apply IH. exact H.
Qed.

(** X12. When a target answers with an empty body, [unlock] performs no
    write at all for it, so nothing in the output shows that the target
    was reached, while [attach], [detach] and [info] with format [json]
    still write the target's label followed by an empty line. *)
Theorem empty_body_output
    (a : runtime) (c : command) (i : nat) (s : apiServerConfig) (body : Body) :
  Get (httpClient a) i (requestURL c s) = GetOk body ->
  concat_str (chunks body) = "" ->
  match c with
  | Unlock _ => stdout_writes (commandUnit a c i s) = []
  | Detach _ | Attach _ =>
      stdout_writes (commandUnit a c i s) = [URL s +++ ":" +++ LF +++ LF]
  | Info f =>
      format f = "json" ->
      stdout_writes (commandUnit a c i s) = [URL s +++ ":" +++ LF +++ LF]
  end.
Proof.
  intros Hc He. destruct c as [f|f|f|f]; simpl in *.
  - intros Hf. rewrite infoUnit_stdout, Hc, Hf, He. reflexivity.
  - unfold detachUnit, detachURL in *. rewrite lockUnit_stdout, Hc, He.
    reflexivity.
  - unfold attachUnit, attachURL in *. rewrite lockUnit_stdout, Hc, He.
    reflexivity.
  - rewrite unlockUnit_stdout, Hc. apply written_chunks_empty. exact He.
Qed.

Lemma empty_body_output_witness :
  stdout_writes (commandUnit silentApp (Unlock exampleUnlock) 0 lb1) = [].
Proof.
  apply (empty_body_output silentApp (Unlock exampleUnlock) 0 lb1 silentBody);
    reflexivity.
Defined.

(** ** Log records *)

Lemma log_records_request u es :
  log_records (HttpGet u :: es) = log_records es.
Proof. reflexivity. Qed.

Lemma log_records_app es1 es2 :
  log_records (es1 ++ es2) = log_records es1 ++ log_records es2.
Proof. apply omap_app. Qed.

Lemma log_records_reads b : log_records (reads b) = [].
Proof. unfold reads. induction (chunks b); [reflexivity|]. exact IHl. Qed.

Lemma log_records_Stdout l : log_records (map Stdout l) = [].
Proof. induction l as [|t l IH]; [reflexivity|]. exact IH. Qed.

Lemma log_records_Copy cs : log_records (Copy cs) = [].
Proof.
  induction cs as [|c cs IH]; [reflexivity|]. simpl.
  destruct (String.eqb c ""); exact IH.
Qed.

Lemma log_records_logErr err msg u :
  log_records (logErr err msg u) =
  match err with Some _ => [(msg, u)] | None => [] end.
Proof. destruct err; reflexivity. Qed.

(** X13. The records handed to the error logger, for every subcommand
    and target: none when the request fails (that goes to standard
    error); for [attach] and [detach] one record exactly when reading the
    body failed; for [info] that record and, with format [text], a second
    one exactly when the decoder failed; for [unlock] never any, a
    failure while the body is copied leaving no trace.  Every record
    carries the URL of its own target. *)
Theorem log_records_of_a_goroutine
    (a : runtime) (c : command) (i : nat) (s : apiServerConfig) :
  log_records (commandUnit a c i s) =
  match Get (httpClient a) i (requestURL c s) with
  | GetErr _ => []
  | GetOk body =>
      let readFailed :=
        match readErr body with
        | Some _ =>
            [("failed to read response from goloba API server", URL s)]
        | None => []
        end in
      match c with
      | Unlock _ => []
      | Detach _ | Attach _ => readFailed
      | Info f =>
          readFailed ++
          if String.eqb (format f) "text" then
            match (Unmarshal a (concat_str (chunks body))).2 with
            | Some _ =>
                [("failed to unmarshal JSON response from goloba API server",
                  URL s)]
            | None => []
            end
          else []
      end
  end.
Proof.
  destruct c as [f|f|f|f];
    unfold commandUnit, requestURL, infoUnit, detachUnit, attachUnit,
      lockUnit, unlockUnit, detachURL, attachURL, ReadAll.
  - destruct (Get (httpClient a) i (infoURL s)) as [err|b]; [reflexivity|].
    rewrite log_records_request.
    rewrite !log_records_app, log_records_reads, log_records_logErr.
    rewrite app_nil_l. f_equal.
    destruct (String.eqb (format f) "json") eqn:Hj.
    + apply String.eqb_eq in Hj. rewrite Hj. reflexivity.
    + destruct (String.eqb (format f) "text"); [|reflexivity].
      destruct (Unmarshal a _) as [info e].
      rewrite log_records_app, log_records_logErr, log_records_Stdout.
      apply app_nil_r.
  - destruct (Get (httpClient a) i _) as [err|b]; [reflexivity|].
    rewrite log_records_request.
    rewrite !log_records_app, log_records_reads, log_records_logErr.
    rewrite app_nil_l. apply app_nil_r.
  - destruct (Get (httpClient a) i _) as [err|b]; [reflexivity|].
    rewrite log_records_request.
    rewrite !log_records_app, log_records_reads, log_records_logErr.
    rewrite app_nil_l. apply app_nil_r.
  - destruct (Get (httpClient a) i _) as [err|b]; [reflexivity|].
    rewrite log_records_request.
    apply log_records_Copy.
Qed.


(** ** Before the subcommand *)

Lemma subcommand_of_Some name sub :
  subcommand_of name = Some sub <->
  (name = "info" /\ sub = SubInfo) \/ (name = "detach" /\ sub = SubDetach)
  \/ (name = "attach" /\ sub = SubAttach)
  \/ (name = "unlock" /\ sub = SubUnlock).
Proof.
  unfold subcommand_of. split.
  - destruct (String.eqb_spec name "info"); [intros [= <-]; auto|].
    destruct (String.eqb_spec name "detach"); [intros [= <-]; auto|].
    destruct (String.eqb_spec name "attach"); [intros [= <-]; auto 6|].
    destruct (String.eqb_spec name "unlock"); [intros [= <-]; auto 6|].
    discriminate.
  - intros [[-> ->]|[[-> ->]|[[-> ->]|[-> ->]]]]; reflexivity.
Qed.

(** X14. [main] calls a subcommand exactly when there is at least one
    argument, the configuration file can be read, its contents parse, and
    the first argument is one of [info], [detach], [attach], [unlock]
    (exactly so, in lower case); the subcommand then gets the remaining
    arguments and the parsed configuration.  The file read is the one
    named by [-config], or [/etc/goloba/golobactl.yml] without the flag.
    The checks come in this order: without arguments the file is not
    even read, and a configuration that fails to load is reported, with
    its file name, before the name of the subcommand is looked at. *)
Theorem main_calls_a_subcommand_only_when_configured
    (os : system) (configFlag : option string) (args : list string) :
  (forall sub rest conf,
     start os configFlag args = Call sub rest conf <->
     exists name buf,
       args = name :: rest
       /\ ReadFile os (default "/etc/goloba/golobactl.yml" configFlag) = inr buf
       /\ yaml_Unmarshal os buf = inr conf
       /\ (name = "info" /\ sub = SubInfo \/ name = "detach" /\ sub = SubDetach
           \/ name = "attach" /\ sub = SubAttach
           \/ name = "unlock" /\ sub = SubUnlock))
  /\ (args = [] -> forall os', start os' configFlag args = UsageExit)
  /\ (forall err, args <> [] ->
        ReadFile os (default "/etc/goloba/golobactl.yml" configFlag) = inl err ->
        start os configFlag args =
          ConfigExit (ReadFailed err
                        (default "/etc/goloba/golobactl.yml" configFlag)))
  /\ (forall buf err, args <> [] ->
        ReadFile os (default "/etc/goloba/golobactl.yml" configFlag) = inr buf ->
        yaml_Unmarshal os buf = inl err ->
        start os configFlag args =
          ConfigExit (ParseFailed err
                        (default "/etc/goloba/golobactl.yml" configFlag))).
Proof.
  set (file := default "/etc/goloba/golobactl.yml" configFlag).
  split; [|split; [|split]].
  - intros sub rest conf. unfold start, loadConfig. fold file. split.
    + destruct args as [|name rest']; [discriminate|].
      destruct (ReadFile os file) as [err|buf] eqn:Hr; [discriminate|].
      destruct (yaml_Unmarshal os buf) as [err|c] eqn:Hy; [discriminate|].
      destruct (subcommand_of name) as [sub'|] eqn:Hn; [|discriminate].
      intros [= <- <- <-]. exists name, buf.
      apply subcommand_of_Some in Hn. repeat split; assumption.
    + intros (name & buf & -> & Hr & Hy & Hn).
      apply subcommand_of_Some in Hn. rewrite Hr, Hy, Hn. reflexivity.
  - intros -> os'. reflexivity.
  - intros err Hargs Hr. destruct args as [|name rest]; [congruence|].
    unfold start, loadConfig. fold file. rewrite Hr. reflexivity.
  - intros buf err Hargs Hr Hy. destruct args as [|name rest]; [congruence|].
    unfold start, loadConfig. fold file. rewrite Hr, Hy. reflexivity.
Qed.

Lemma main_calls_a_subcommand_only_when_configured_witness :
  start brokenSystem None ["help"] =
    ConfigExit (ReadFailed "open: no such file or directory"
                  "/etc/goloba/golobactl.yml").
Proof.
  destruct (main_calls_a_subcommand_only_when_configured brokenSystem None
              ["help"]) as (_ & _ & H & _).
  apply (H "open: no such file or directory").
  - discriminate.
  - reflexivity.
Defined.

(** ** How the body arrives *)

(** X15. How the bytes of a body are cut into reads does not change the
    report: two answers with the same bytes give, for [info] (any format,
    same decoder), [attach] and [detach], the same writes, and for
    [unlock] writes that put together are the same text, though cut
    differently. *)
Theorem report_does_not_depend_on_chunking
    (a a' : runtime) (c : command) (i : nat) (s : apiServerConfig)
    (body body' : Body) :
  Get (httpClient a) i (requestURL c s) = GetOk body ->
  Get (httpClient a') i (requestURL c s) = GetOk body' ->
  Unmarshal a = Unmarshal a' ->
  concat_str (chunks body) = concat_str (chunks body') ->
  match c with
  | Unlock _ =>
      concat_str (stdout_writes (commandUnit a c i s)) =
      concat_str (stdout_writes (commandUnit a' c i s))
  | _ =>
      stdout_writes (commandUnit a c i s) =
      stdout_writes (commandUnit a' c i s)
  end.
Proof.
  intros Hc Hc' Hd Hb. destruct c as [f|f|f|f]; simpl in *.
  - rewrite !infoUnit_stdout, Hc, Hc', Hd, Hb. reflexivity.
  - unfold detachUnit, detachURL in *.
    rewrite !lockUnit_stdout, Hc, Hc', Hb. reflexivity.
  - unfold attachUnit, attachURL in *.
    rewrite !lockUnit_stdout, Hc, Hc', Hb. reflexivity.
  - rewrite !unlockUnit_stdout, Hc, Hc', !concat_written_chunks. exact Hb.
Qed.

Lemma report_does_not_depend_on_chunking_witness :
  stdout_writes (commandUnit piecewiseApp (Attach exampleAttach) 0 lb1) =
  stdout_writes (commandUnit quietApp (Attach exampleAttach) 0 lb1).
Proof.
  apply (report_does_not_depend_on_chunking piecewiseApp quietApp
           (Attach exampleAttach) 0 lb1 piecewiseBody (wholeBody "{}"));
    reflexivity.
Defined.

(** ** After the return *)

(** X16. Once a subcommand has returned nothing moves any more: no
    goroutine is left to write, read or finish, and none is started, so
    all the output of a run is in the history by the time the command
    returns. *)
Theorem nothing_happens_after_the_return
    (a : runtime) (c : command) (st st' : state) :
  main a c st -> pos st = Returned -> ~ step (commandUnit a c) st st'.
Proof.
  intros Hrun Hq Hstep. apply main_inv in Hrun.
  pose proof (inv_returned _ _ _ Hrun Hq) as H0.
  destruct Hstep as [s0 rest n p h|i e es q n p h Hi|i q n p h Hi|p h];
    simpl in *; try discriminate.
  - exact (running_zero _ _ _ H0 Hi).
  - exact (running_zero _ _ _ H0 Hi).
Qed.

Lemma nothing_happens_after_the_return_witness :
  let st := drive (commandUnit quietApp (Attach exampleAttach)) 20
              (init [lb1; lb2]) in
  next (commandUnit quietApp (Attach exampleAttach)) Main st = None
  /\ forall st', ~ step (commandUnit quietApp (Attach exampleAttach)) st st'.
Proof.
  intros st. split; [vm_compute; reflexivity|].
  intros st'.
  apply (nothing_happens_after_the_return quietApp (Attach exampleAttach)).
  - apply drive_rtc.
  - vm_compute. reflexivity.
Defined.
